(** * The backend loader: [table_initializer] of function_table_initializer.hpp

    A shallow embedding of [table_initializer<domain_id, function_table_t>]:
    its two member functions [operator[]] and [add_table], the two member
    maps [tables] and [handles], the [unique_ptr] wrapper [dlhandle] with its
    [handle_deleter], and the platform macros they call.  The code throws,
    mutates its maps and talks to the dynamic loader of the operating system,
    so it is written in a small state-and-exception monad over an explicit
    program state; every call of a platform macro and every assignment to an
    entry of the two maps is recorded in a trace. *)

From Stdlib Require Import ZArith.
From stdpp Require Import gmap strings list fin_maps.

Local Open Scope Z_scope.

(** * What the included headers provide *)

(** Modelled from the spec: the enumerations [oneapi::math::device] (with its
    value [generic_device]) and [oneapi::math::domain], the SYCL queue with
    [get_device()], and the registry entry [table_names] are declared in
    headers that are not part of the sources at hand
    (oneapi/math/detail/backends_table.hpp and the SYCL headers).  The spec
    describes devices as identifiers used as cache keys, one of which is
    [generic_device]; the registry as [domain -> exported table symbol name].
    They are kept abstract here. *)
Class Externals := {
  device : Type;
  device_eq_dec :: EqDecision device;
  device_countable :: Countable device;
  generic_device : device;
  domain : Type;
  domain_eq_dec :: EqDecision domain;
  domain_countable :: Countable domain;
  sycl_device : Type;
  queue : Type;
  get_device : queue → sycl_device;
  table_names : domain → string;
}.

(** The template parameter [function_table_t]: any struct with an integer
    member [version] (read by [t->version] in [add_table]). *)
Class FunctionTable (function_table_t : Type) := {
  version : function_table_t → Z;
}.

(** One instantiation of the class template in one build: the template
    parameter [domain_id], and [is_generic_device_supported], which is [true]
    when the build defines [ENABLE_GENERIC_BLAS_BACKEND] or
    [ENABLE_PORTFFT_BACKEND]. *)
Class Instantiation {E : Externals} := {
  domain_id : domain;
  is_generic_device_supported : bool;
}.

(** [#define SPEC_VERSION 1] *)
Definition SPEC_VERSION : Z := 1.

(** The platform macros, selected by [__linux__] / [_WIN64].  [LIB_TYPE] is a
    nullable token ([void*] or [HINSTANCE]); [lib] is the type of its
    non-null values and [option lib] the token itself, [None] being null.
    [GET_FUNC] yields a nullable pointer into the image of the plugin;
    [table_ptr] is the type of its non-null values and [load] reads the
    [function_table_t] stored there.  [ERROR_MSG] is nullable too: on Linux
    it is [dlerror()], a [char*] that is null when no loader error is
    pending ([None]); on [_WIN64] it is a [std::string] and never null.  The
    calls act on the state of the operating system's loader, [world]. *)
Class Platform (function_table_t : Type) := {
  world : Type;
  lib : Type;
  table_ptr : Type;
  error_text : Type;
  GET_LIB_HANDLE : string → world → option lib * world;
  GET_FUNC : lib → string → world → option table_ptr * world;
  FREE_LIB_HANDLE : lib → world → world;
  ERROR_MSG : world → option error_text * world;
  load : world → table_ptr → function_table_t;
}.

Section table_initializer.
Context {E : Externals}.
Context {function_table_t : Type} {FT : FunctionTable function_table_t}.
Context {P : Platform function_table_t}.

Context {I : Instantiation}.

(** [using dlhandle = std::unique_ptr<LIB_TYPE, handle_deleter>]: an owned,
    possibly null token. *)
Definition dlhandle : Type := option lib.

(** The exceptions of oneapi/math/detail/exceptions.hpp that [add_table]
    throws; [unsupported_device] carries [q.get_device()]. *)
Inductive exception : Type :=
| unsupported_device (dev : sycl_device)
| backend_not_found
| function_not_found
| specification_mismatch.

(** The trace of a run, oldest entry first: one entry per call of a
    platform macro ([GET_LIB_HANDLE], [GET_FUNC], [FREE_LIB_HANDLE], and
    [ERROR_MSG] inserted into [std::cerr]) and one per assignment to an entry
    of the member maps [handles] and [tables].  [ev_cerr msg] is the
    statement [std::cerr << ERROR_MSG << '\n'] executed with the operand
    [msg], which is [None] for a null [char*]. *)
Inductive event : Type :=
| ev_open (libname : string) (result : dlhandle)
| ev_func (h : lib) (symbol : string) (result : option table_ptr)
| ev_free (h : lib)
| ev_cerr (msg : option error_text)
| ev_store_handle (key : device) (h : dlhandle)
| ev_store_table (key : device).

(** What a returned [function_table_t&] refers to: the entry of the member
    map [tables] under a key ([lib->second]), or the object in the image of
    the plugin that a pointer [t] points to ([*t]). *)
Inductive table_ref : Type :=
| ref_cache (key : device)
| ref_image (t : table_ptr).

(** Modelled from the spec: the registry [libraries] is declared in
    backends_table.hpp, which is not part of the sources at hand.  The spec
    gives it as [(domain, device) -> ordered list of candidate library
    names]; [add_table] indexes it as [libraries[domain_id][key]], so it is
    a map of maps whose [operator[]] creates a missing entry with a
    default-constructed value.  It is static mutable data and therefore a
    component of the program state, next to the member maps [tables] and
    [handles] of the source, the state [os] of the loader and the [trace]. *)
Record state : Type := State {
  libraries : gmap domain (gmap device (list string));
  tables : gmap device function_table_t;
  handles : gmap device dlhandle;
  os : world;
  trace : list event;
}.

Definition set_libraries (m : gmap domain (gmap device (list string))) (s : state) : state :=
  State m (tables s) (handles s) (os s) (trace s).
Definition set_tables (m : gmap device function_table_t) (s : state) : state :=
  State (libraries s) m (handles s) (os s) (trace s).
Definition set_handles (m : gmap device dlhandle) (s : state) : state :=
  State (libraries s) (tables s) m (os s) (trace s).
Definition set_os (w : world) (s : state) : state :=
  State (libraries s) (tables s) (handles s) w (trace s).
Definition log (e : event) (s : state) : state :=
  State (libraries s) (tables s) (handles s) (os s) (trace s ++ [e]).

(** ** The monad: state passing with exceptions *)

Inductive outcome (A : Type) : Type :=
| Return (a : A)
| Throw (e : exception).
Global Arguments Return {A} a.
Global Arguments Throw {A} e.

Definition M (A : Type) : Type := state → outcome A * state.

Definition ret {A} (a : A) : M A := fun s => (Return a, s).

Definition throw {A} (e : exception) : M A := fun s => (Throw e, s).

Definition bind {A B} (m : M A) (k : A → M B) : M B := fun s =>
  match m s with
  | (Return a, s') => k a s'
  | (Throw e, s') => (Throw e, s')
  end.

(** Stack unwinding past a local [dlhandle]: when an exception leaves the
    scope, the destructor [dtor] of the local runs and the exception
    travels on. *)
Definition unwinding {A} (dtor : M unit) (body : M A) : M A := fun s =>
  match body s with
  | (Return a, s') => (Return a, s')
  | (Throw e, s') => (Throw e, snd (dtor s'))
  end.

Notation "x <- m ;; k" := (bind m (fun x => k))
  (at level 100, m at next level, right associativity).
Notation "m ;;; k" := (bind m (fun _ => k))
  (at level 100, right associativity).

(** ** The platform macros as instrumented actions *)

(** [::GET_LIB_HANDLE(libname)] *)
Definition get_lib_handle (libname : string) : M dlhandle := fun s =>
  let '(p, w) := GET_LIB_HANDLE libname (os s) in
  (Return p, log (ev_open libname p) (set_os w s)).

(** [::GET_FUNC(lib, fn)] *)
Definition get_func (h : lib) (fn : string) : M (option table_ptr) := fun s =>
  let '(t, w) := GET_FUNC h fn (os s) in
  (Return t, log (ev_func h fn t) (set_os w s)).

(** [handle_deleter::operator()]: [::FREE_LIB_HANDLE(p)] *)
Definition handle_deleter (p : lib) : M unit := fun s =>
  (Return tt, log (ev_free p) (set_os (FREE_LIB_HANDLE p (os s)) s)).

(** [std::cerr << ERROR_MSG << '\n']: [ERROR_MSG] is evaluated and inserted
    into the stream; the operand may be null. *)
Definition cerr_error_msg : M unit := fun s =>
  let '(msg, w) := ERROR_MSG (os s) in
  (Return tt, log (ev_cerr msg) (set_os w s)).

(** What the insertions of a trace do to [std::cerr], a stream without
    exception mask that nothing else touches.  Inserting a null [char*]
    is undefined in the C++ standard; the embedding follows libstdc++, where
    the insertion writes nothing and sets [badbit], after which this and
    every later insertion writes nothing.  [cerr_bad] tells whether [badbit]
    is set after a trace, [cerr_output] gives the texts written (each
    followed by a newline). *)
Definition cerr_bad (evs : list event) : bool :=
  existsb (fun e => match e with ev_cerr None => true | _ => false end) evs.

Fixpoint cerr_output (evs : list event) : list error_text :=
  match evs with
  | [] => []
  | ev_cerr None :: _ => []
  | ev_cerr (Some msg) :: evs' => msg :: cerr_output evs'
  | _ :: evs' => cerr_output evs'
  end.

(** [t->version] and [*t]: a read in the image of the plugin. *)
Definition read_table (t : table_ptr) : M function_table_t := fun s =>
  (Return (load (os s) t), s).

(** ** [std::unique_ptr<LIB_TYPE, handle_deleter>] *)

(** [~unique_ptr]: the deleter runs on a non-null token only. *)
Definition dlhandle_dtor (h : dlhandle) : M unit :=
  match h with
  | Some p => handle_deleter p
  | None => ret tt
  end.

(** Move assignment [lhs = dlhandle{p}] to a local: [lhs] holds [p]
    afterwards and the token it held before is released. *)
Definition dlhandle_assign (lhs : dlhandle) (p : dlhandle) : M dlhandle :=
  dlhandle_dtor lhs ;;; ret p.

(** ** Member maps and the registry *)

(** [libraries[domain_id][key]]: [std::map::operator[]] at both levels. *)
Definition libraries_at (dom : domain) (key : device) : M (list string) := fun s =>
  let per_device := default ∅ (libraries s !! dom) in
  let libs := default [] (per_device !! key) in
  (Return libs, set_libraries (<[dom := <[key := libs]> per_device]> (libraries s)) s).

(** [handles[key] = std::move(handle)]: [operator[]] creates a null entry
    when there is none; the move assignment puts the token of [handle] in
    the entry and then releases the token the entry held before. *)
Definition handles_assign (key : device) (handle : dlhandle) : M unit := fun s =>
  let old := default None (handles s !! key) in
  dlhandle_dtor old
    (log (ev_store_handle key handle) (set_handles (<[key := handle]> (handles s)) s)).

(** [tables[key] = v] *)
Definition tables_assign (key : device) (v : function_table_t) : M unit := fun s =>
  (Return tt, log (ev_store_table key) (set_tables (<[key := v]> (tables s)) s)).

(** ** [table_initializer::add_table] *)

(** The range-for over the candidates: each name is opened and the result
    assigned to the local [handle]; [break] on the first non-null one. *)
Fixpoint open_candidates (libs : list string) (handle : dlhandle) : M dlhandle :=
  match libs with
  | [] => ret handle
  | libname :: rest =>
      p <- get_lib_handle libname ;;
      handle' <- dlhandle_assign handle p ;;
      match handle' with
      | Some _ => ret handle'
      | None => open_candidates rest handle'
      end
  end.

(** Everything after the loop.  On the exits by [throw] the local [handle]
    still owns its token and its destructor runs while the stack unwinds;
    on the exit by [return] it has been moved from and is null. *)
Definition add_table_after_loop (key : device) (q : queue) (handle : dlhandle)
  : M table_ref :=
  unwinding (dlhandle_dtor handle)
    match handle with
    | None =>
        if negb is_generic_device_supported && bool_decide (key = generic_device)
        then throw (unsupported_device (get_device q))
        else cerr_error_msg ;;; throw backend_not_found
    | Some h =>
        t <- get_func h (table_names domain_id) ;;
        match t with
        | None => cerr_error_msg ;;; throw function_not_found
        | Some t =>
            v <- read_table t ;;
            if bool_decide (version v ≠ SPEC_VERSION)
            then throw specification_mismatch
            else
              handles_assign key handle ;;;
              v <- read_table t ;;
              tables_assign key v ;;;
              ret (ref_image t)
        end
    end.

Definition add_table (key : device) (q : queue) : M table_ref :=
  libs <- libraries_at domain_id key ;;
  handle <- open_candidates libs None ;;
  add_table_after_loop key q handle.

(** ** [table_initializer::operator[]], the [resolve] operation of the spec *)

Definition resolve (device_queue_pair : device * queue) : M table_ref := fun s =>
  match tables s !! device_queue_pair.1 with
  | Some _ => (Return (ref_cache device_queue_pair.1), s)
  | None => add_table device_queue_pair.1 device_queue_pair.2 s
  end.

(** The table a returned reference denotes in a given state. *)
Definition deref (r : table_ref) (s : state) : option function_table_t :=
  match r with
  | ref_cache key => tables s !! key
  | ref_image t => Some (load (os s) t)
  end.

(** Both member maps start empty. *)
Definition initial (reg : gmap domain (gmap device (list string))) (w : world) : state :=
  State reg ∅ ∅ w [].

End table_initializer.

(** * Vocabulary for the properties *)

Section vocabulary.
Context {E : Externals}.
Context {function_table_t : Type} {FT : FunctionTable function_table_t}.
Context {P : Platform function_table_t}.
Context {I : Instantiation}.

Implicit Types (s : state) (key : device) (q : queue) (w : world)
  (h : dlhandle) (p : lib) (t : table_ptr) (evs : list event).

(** The candidate list [libraries[domain_id][key]] yields in a state, and
    the registry after the two [operator[]] calls. *)
Definition candidates s key : list string :=
  default [] (default ∅ (libraries s !! domain_id) !! key).

Definition registry_after s key : gmap domain (gmap device (list string)) :=
  <[domain_id := <[key := candidates s key]> (default ∅ (libraries s !! domain_id))]>
    (libraries s).

(** The search for a candidate as a relation on the loader's state:
    [search libs w h w' evs] when trying the names of [libs] in order from
    [w] ends in [w'] with the token [h], after the calls [evs]. *)
Inductive search : list string → world → dlhandle → world → list event → Prop :=
| search_end w :
    search [] w None w []
| search_hit libname rest w p w' :
    GET_LIB_HANDLE libname w = (Some p, w') →
    search (libname :: rest) w (Some p) w' [ev_open libname (Some p)]
| search_miss libname rest w w1 h w' evs :
    GET_LIB_HANDLE libname w = (None, w1) →
    search rest w1 h w' evs →
    search (libname :: rest) w h w' (ev_open libname None :: evs).

(** The token displaced from [handles[key]] by the move assignment. *)
Definition displaced s key : dlhandle := default None (handles s !! key).

Definition released (old : dlhandle) w : world :=
  match old with Some p => FREE_LIB_HANDLE p w | None => w end.

Definition release_events (old : dlhandle) : list event :=
  match old with Some p => [ev_free p] | None => [] end.

(** The five ways through [add_table], each with the outcome and the state
    it leaves. *)
Inductive add_table_path key q s : outcome table_ref → state → Prop :=
| path_unsupported_device w evs :
    search (candidates s key) (os s) None w evs →
    is_generic_device_supported = false →
    key = generic_device →
    add_table_path key q s
      (Throw (unsupported_device (get_device q)))
      (State (registry_after s key) (tables s) (handles s) w (trace s ++ evs))
| path_backend_not_found w evs msg w' :
    search (candidates s key) (os s) None w evs →
    is_generic_device_supported = true ∨ key ≠ generic_device →
    ERROR_MSG w = (msg, w') →
    add_table_path key q s
      (Throw backend_not_found)
      (State (registry_after s key) (tables s) (handles s) w'
         (trace s ++ evs ++ [ev_cerr msg]))
| path_function_not_found p w evs w1 msg w2 :
    search (candidates s key) (os s) (Some p) w evs →
    GET_FUNC p (table_names domain_id) w = (None, w1) →
    ERROR_MSG w1 = (msg, w2) →
    add_table_path key q s
      (Throw function_not_found)
      (State (registry_after s key) (tables s) (handles s) (FREE_LIB_HANDLE p w2)
         (trace s ++ evs ++
            [ev_func p (table_names domain_id) None; ev_cerr msg; ev_free p]))
| path_specification_mismatch p w evs t w1 :
    search (candidates s key) (os s) (Some p) w evs →
    GET_FUNC p (table_names domain_id) w = (Some t, w1) →
    version (load w1 t) ≠ SPEC_VERSION →
    add_table_path key q s
      (Throw specification_mismatch)
      (State (registry_after s key) (tables s) (handles s) (FREE_LIB_HANDLE p w1)
         (trace s ++ evs ++ [ev_func p (table_names domain_id) (Some t); ev_free p]))
| path_loaded p w evs t w1 :
    search (candidates s key) (os s) (Some p) w evs →
    GET_FUNC p (table_names domain_id) w = (Some t, w1) →
    version (load w1 t) = SPEC_VERSION →
    add_table_path key q s
      (Return (ref_image t))
      (State (registry_after s key)
         (<[key := load (released (displaced s key) w1) t]> (tables s))
         (<[key := Some p]> (handles s))
         (released (displaced s key) w1)
         (trace s ++ evs ++
            ev_func p (table_names domain_id) (Some t)
            :: ev_store_handle key (Some p)
            :: release_events (displaced s key) ++ [ev_store_table key])).

(** The library names passed to [GET_LIB_HANDLE], in call order. *)
Definition open_attempts evs : list string :=
  omap (fun e => match e with ev_open libname _ => Some libname | _ => None end) evs.

(** The tokens that [GET_LIB_HANDLE] returned non-null, in call order. *)
Definition opened evs : list lib :=
  omap (fun e => match e with ev_open _ (Some p) => Some p | _ => None end) evs.

(** The tokens passed to [FREE_LIB_HANDLE], in call order. *)
Definition freed evs : list lib :=
  omap (fun e => match e with ev_free p => Some p | _ => None end) evs.

Definition failed_opens (names : list string) : list event :=
  map (fun libname => ev_open libname None) names.

(** Every device with an entry in [tables] has a non-null token in
    [handles]. *)
Definition backed s : Prop :=
  ∀ key, is_Some (tables s !! key) → ∃ p, handles s !! key = Some (Some p).

(** The states a program can be in: both maps empty at construction, then
    any resolve calls, between which the loader's state may change. *)
Inductive reachable : state → Prop :=
| reachable_initial reg w :
    reachable (initial reg w)
| reachable_resolve dq s :
    reachable s → reachable (resolve dq s).2
| reachable_world w s :
    reachable s → reachable (set_os w s).

(** The assignments to map entries among the events of a trace. *)
Definition cache_writes evs : list event :=
  omap (fun e => match e with
                 | ev_store_handle _ _ | ev_store_table _ => Some e
                 | _ => None
                 end) evs.

(** The failure kinds of the spec, an exception without its payload. *)
Inductive failure_kind : Type :=
| UnsupportedDevice
| BackendNotFound
| FunctionNotFound
| SpecificationMismatch.

Definition kind_of (e : exception) : failure_kind :=
  match e with
  | unsupported_device _ => UnsupportedDevice
  | backend_not_found => BackendNotFound
  | function_not_found => FunctionNotFound
  | specification_mismatch => SpecificationMismatch
  end.

(** An outcome up to the payload of its exception. *)
Definition outcome_kind (r : outcome table_ref) : table_ref + failure_kind :=
  match r with
  | Return ref => inl ref
  | Throw e => inr (kind_of e)
  end.

End vocabulary.

(** * A stub platform

    A loader over an explicit set of installed plugins, for running the
    embedding on concrete inputs: a library opens when it is installed, a
    symbol resolves when the plugin exports it, and the last failure text is
    kept until it is fetched; with no failure pending the error text is null,
    as with [dlerror()]. *)
Module Stub.

Inductive stub_device : Type := cpu | gpu | generic.
Inductive stub_domain : Type := blas | dft.

#[export] Instance stub_device_eq_dec : EqDecision stub_device.
Proof. solve_decision. Defined.
#[export] Instance stub_domain_eq_dec : EqDecision stub_domain.
Proof. solve_decision. Defined.

#[export] Instance stub_device_countable : Countable stub_device :=
  inj_countable'
    (fun d => match d with cpu => 0%nat | gpu => 1%nat | generic => 2%nat end)
    (fun n => match n with O => cpu | S O => gpu | _ => generic end)
    (fun d => match d with cpu | gpu | generic => eq_refl end).
#[export] Instance stub_domain_countable : Countable stub_domain :=
  inj_countable'
    (fun d => match d with blas => false | dft => true end)
    (fun b => if b : bool then dft else blas)
    (fun d => match d with blas | dft => eq_refl end).

Record stub_queue : Type := Queue { queue_device : string; queue_id : nat }.

#[export] Instance externals : Externals := {|
  device := stub_device;
  generic_device := generic;
  domain := stub_domain;
  sycl_device := string;
  queue := stub_queue;
  get_device := queue_device;
  table_names := fun d => match d with blas => "blas_table" | dft => "dft_table" end;
|}.

Record stub_table : Type := Table { table_version : Z; table_tag : string }.

#[export] Instance stub_function_table : FunctionTable stub_table := {|
  version := table_version;
|}.

Fixpoint assoc {A} (k : string) (l : list (string * A)) : option A :=
  match l with
  | [] => None
  | (k', a) :: l' => if String.eqb k k' then Some a else assoc k l'
  end.

Fixpoint remove_one (k : string) (l : list string) : list string :=
  match l with
  | [] => []
  | k' :: l' => if String.eqb k k' then l' else k' :: remove_one k l'
  end.

Record stub_world : Type := World {
  installed : list (string * list (string * stub_table));
  loaded : list string;
  last_error : option string;
}.

Definition stub_open (libname : string) (w : stub_world) : option string * stub_world :=
  match assoc libname (installed w) with
  | Some _ => (Some libname, World (installed w) (libname :: loaded w) (last_error w))
  | None => (None, World (installed w) (loaded w) (Some (libname +:+ ": cannot open")))
  end.

Definition stub_symbol (h fn : string) (w : stub_world)
  : option (string * string) * stub_world :=
  match assoc h (installed w) ≫= assoc fn with
  | Some _ => (Some (h, fn), w)
  | None => (None, World (installed w) (loaded w) (Some (h +:+ ": undefined symbol " +:+ fn)))
  end.

Definition stub_close (h : string) (w : stub_world) : stub_world :=
  World (installed w) (remove_one h (loaded w)) (last_error w).

Definition stub_error (w : stub_world) : option string * stub_world :=
  (last_error w, World (installed w) (loaded w) None).

Definition stub_load (w : stub_world) (t : string * string) : stub_table :=
  default (Table 0 "") (assoc t.1 (installed w) ≫= assoc t.2).

#[export] Instance platform : Platform stub_table := {|
  world := stub_world;
  lib := string;
  table_ptr := string * string;
  error_text := string;
  GET_LIB_HANDLE := stub_open;
  GET_FUNC := stub_symbol;
  FREE_LIB_HANDLE := stub_close;
  ERROR_MSG := stub_error;
  load := stub_load;
|}.

(** The registry used in the examples.  For [blas]: [cpu] has the candidates
    [A; B], [gpu] has one candidate and [generic] an explicitly empty list.
    For [dft]: [cpu] has one candidate, [gpu] has two, and [generic] is not
    listed. *)
Definition registry : gmap stub_domain (gmap stub_device (list string)) :=
  {[ blas := {[ cpu := ["libA.so"; "libB.so"]; gpu := ["libG.so"]; generic := [] ]};
     dft := {[ cpu := ["libN.so"]; gpu := ["libX.so"; "libY.so"] ]} ]}.

(** Installed plugins: [libB.so] exports a table of version 1, [libG.so] a
    table of version 2, [libN.so] opens but exports nothing; [libA.so],
    [libX.so] and [libY.so] are not installed. *)
Definition plugins : list (string * list (string * stub_table)) :=
  [ ("libB.so", [("blas_table", Table 1 "B")]);
    ("libG.so", [("blas_table", Table 2 "G")]);
    ("libN.so", []) ].

Definition world0 : stub_world := World plugins [] None.

(** The state at construction, over the registry and the plugins above. *)
Definition start : state (E := externals) (P := platform) :=
  initial (E := externals) registry world0.

(** Two instantiations, both in a build without a generic backend. *)
Definition blas_build : Instantiation :=
  {| domain_id := blas; is_generic_device_supported := false |}.
Definition dft_build : Instantiation :=
  {| domain_id := dft; is_generic_device_supported := false |}.

Definition q1 : stub_queue := Queue "Stub CPU" 1.
Definition q2 : stub_queue := Queue "Stub GPU" 2.


(** The state after the first resolve for [cpu] in the [blas] build. *)
Definition after_cpu : state (E := externals) (P := platform) :=
  (resolve (I := blas_build) (cpu, q1) start).2.

End Stub.

(** * Vocabulary for runs of several calls *)

Section runs.
Context {E : Externals}.
Context {function_table_t : Type} {FT : FunctionTable function_table_t}.
Context {P : Platform function_table_t}.
Context {I : Instantiation}.

Implicit Types (s : state) (key : device) (evs : list event).

(** The operands of the insertions into [std::cerr], in order; a null
    operand is [None]. *)
Definition diagnostics evs : list (option error_text) :=
  omap (fun e => match e with ev_cerr msg => Some msg | _ => None end) evs.

(** The calls of [GET_FUNC]: token and symbol name, in order. *)
Definition symbol_lookups evs : list (lib * string) :=
  omap (fun e => match e with ev_func h fn _ => Some (h, fn) | _ => None end) evs.

(** The non-null tokens that the member map [handles] owns. *)
Definition held s : list lib := omap id (map_to_list (handles s)).*2.

(** No token is in [handles] under a device that has no entry in [tables]:
    the move assignment [handles[key] = std::move(handle)] of a first load
    then finds a null entry and releases nothing. *)
Definition aligned s : Prop :=
  ∀ key, tables s !! key = None → handles s !! key = None.

(** What the registry yields for a domain and a device, an absent entry
    reading as the empty list that [operator[]] would create. *)
Definition registry_lookup (reg : gmap domain (gmap device (list string)))
    (dom : domain) key : list string :=
  default [] (default ∅ (reg !! dom) !! key).

(** A program using one [table_initializer]: calls of [operator[]], between
    which the state of the loader may change by other causes (a plugin is
    installed or removed).  The outcome of a call is dropped, as by a caller
    that catches the exception. *)
Inductive action : Type :=
| act_resolve (dq : device * queue)
| act_world (w : world).

Definition step (a : action) s : state :=
  match a with
  | act_resolve dq => (resolve dq s).2
  | act_world w => set_os w s
  end.

Definition run (acts : list action) s : state :=
  foldl (fun s a => step a s) s acts.

End runs.

(** * [GetLastErrorStdStr], the [ERROR_MSG] of the [_WIN64] build *)

(** The Win32 calls that [GetLastErrorStdStr] makes, on the state [win_world]
    of the calling thread and its heap.  A [DWORD] is a natural number.
    [FormatMessage] is the call with the flags [FORMAT_MESSAGE_ALLOCATE_BUFFER
    | FORMAT_MESSAGE_FROM_SYSTEM | FORMAT_MESSAGE_IGNORE_INSERTS] for an error
    code: it returns the number of characters stored and the buffer it put
    in [lpMsgBuf]; [peek] reads the character at an offset of a buffer. *)
Class Win32 := {
  win_world : Type;
  buffer : Type;
  GetLastError : win_world → N;
  FormatMessage : N → win_world → N * buffer * win_world;
  peek : win_world → buffer → nat → Ascii.ascii;
  LocalFree : buffer → win_world → win_world;
}.

Section GetLastErrorStdStr.
Context {W : Win32}.

(** The calls that change the heap, oldest first. *)
Inductive win_event : Type :=
| win_format (error : N) (bufLen : N) (lpMsgBuf : buffer)
| win_free (lpMsgBuf : buffer).

(** [std::string result(lpMsgStr, lpMsgStr + bufLen)] *)
Definition string_of_range (w : win_world) (lpMsgStr : buffer) (bufLen : N) : string :=
  String.string_of_list_ascii (map (peek w lpMsgStr) (seq 0 (N.to_nat bufLen))).

(** [table_initializer::GetLastErrorStdStr]: the text, the state afterwards
    and the calls made. *)
Definition GetLastErrorStdStr (w : win_world) : string * win_world * list win_event :=
  let error := GetLastError w in
  if negb (error =? 0)%N then
    let '(bufLen, lpMsgBuf, w1) := FormatMessage error w in
    if negb (bufLen =? 0)%N then
      let result := string_of_range w1 lpMsgBuf bufLen in
      (result, LocalFree lpMsgBuf w1,
       [win_format error bufLen lpMsgBuf; win_free lpMsgBuf])
    else (EmptyString, w1, [win_format error bufLen lpMsgBuf])
  else (EmptyString, w, []).

(** [#define ERROR_MSG GetLastErrorStdStr()] of the [_WIN64] build: the
    operand of the insertion into [std::cerr] is a [std::string], never a
    null pointer. *)
Definition ERROR_MSG_WIN64 (w : win_world) : option string * win_world :=
  (Some (GetLastErrorStdStr w).1.1, (GetLastErrorStdStr w).1.2).

(** The buffers passed to [LocalFree], in order. *)
Definition local_frees (evs : list win_event) : list buffer :=
  omap (fun e => match e with win_free b => Some b | _ => None end) evs.

End GetLastErrorStdStr.

(** * More stub data *)
Module StubMore.
Import Stub.

(** A machine on which no plugin is installed. *)
Definition bare_world : stub_world := World [] [] None.

Definition bare_start : state (E := externals) (P := platform) :=
  initial (E := externals) registry bare_world.

(** The [blas] instantiation in a build with a generic backend. *)
Definition blas_generic_build : Instantiation :=
  {| domain_id := blas; is_generic_device_supported := true |}.

(** The state at construction over a registry that lists nothing. *)
Definition unlisted_start : state (E := externals) (P := platform) :=
  initial (E := externals) ∅ world0.

(** A program: [cpu] is asked for while nothing is installed, the plugins
    are installed, [cpu] is asked for twice, then [gpu]. *)
Definition program : list (action (E := externals) (P := platform)) :=
  [act_resolve (cpu, q1); act_world world0; act_resolve (cpu, q2);
   act_resolve (cpu, q1); act_resolve (gpu, q2)].

(** A stub of the Win32 calls: the heap is the list of buffers allocated so
    far, a buffer is its index; only error 126 has a message text. *)
Record stub_win : Type := Win { win_last_error : N; win_heap : list string }.

Definition stub_format (error : N) (w : stub_win) : N * nat * stub_win :=
  if (error =? 126)%N
  then (N.of_nat (String.length "The specified module could not be found."),
        length (win_heap w),
        Win (win_last_error w)
          (win_heap w ++ ["The specified module could not be found."]))
  else (0%N, 0%nat, Win 317 (win_heap w)).

Definition stub_peek (w : stub_win) (b : nat) (i : nat) : Ascii.ascii :=
  default Ascii.zero (String.get i (default EmptyString (win_heap w !! b))).

Definition stub_local_free (b : nat) (w : stub_win) : stub_win :=
  Win (win_last_error w) (<[b := EmptyString]> (win_heap w)).

#[export] Instance win32 : Win32 := {|
  win_world := stub_win;
  buffer := nat;
  GetLastError := win_last_error;
  FormatMessage := stub_format;
  peek := stub_peek;
  LocalFree := stub_local_free;
|}.

End StubMore.

(** * The paths through [add_table] *)

Ltac run :=
  cbn; unfold log, set_os, set_handles, set_tables, set_libraries; cbn.

Section properties.
Context {E : Externals}.
Context {function_table_t : Type} {FT : FunctionTable function_table_t}.
Context {P : Platform function_table_t}.
Context {I : Instantiation}.

Implicit Types (s : state) (key : device) (q : queue) (w : world)
  (h : dlhandle) (p : lib) (t : table_ptr) (evs : list event).

(** ** The loop *)

Lemma search_total libs w : ∃ h w' evs, search libs w h w' evs.
Proof.
  revert w. induction libs as [|libname rest IH]; intros w.
  - exists None, w, []. constructor.
  - destruct (GET_LIB_HANDLE libname w) as [[p|] w1] eqn:Hopen.
    + exists (Some p), w1, [ev_open libname (Some p)]. by constructor.
    + destruct (IH w1) as (h & w' & evs & Hs).
      exists h, w', (ev_open libname None :: evs). by econstructor.
Qed.

Lemma search_functional libs w h1 w1 evs1 h2 w2 evs2 :
  search libs w h1 w1 evs1 → search libs w h2 w2 evs2 →
  h1 = h2 ∧ w1 = w2 ∧ evs1 = evs2.
Proof.
  intros H1. revert h2 w2 evs2.
  induction H1 as [w|libname rest w p w' Ho|libname rest w wa h w' evs Ho _ IH];
    intros h2 w2 evs2 H2; inversion H2; subst; try congruence.
  - done.
  - split_and!; congruence.
  - match goal with
    | Hn : search rest ?wb h2 w2 _ |- _ =>
        assert (wa = wb) as -> by congruence;
        destruct (IH _ _ _ Hn) as (-> & -> & ->)
    end.
    done.
Qed.

Lemma open_candidates_search libs s h w evs :
  search libs (os s) h w evs →
  open_candidates libs None s =
    (Return h, State (libraries s) (tables s) (handles s) w (trace s ++ evs)).
Proof.
  intros Hs. remember (os s) as w0 eqn:Hw0. revert s Hw0.
  induction Hs as [w|libname rest w p w' Ho|libname rest w w1 h w' evs Ho _ IH];
    intros s ->; cbn.
  - rewrite app_nil_r. by destruct s.
  - unfold bind, get_lib_handle. rewrite Ho. done.
  - unfold bind, get_lib_handle. rewrite Ho. cbn.
    rewrite (IH (log (ev_open libname None) (set_os w1 s)) eq_refl). cbn.
    by rewrite <- app_assoc.
Qed.

(** ** [add_table] follows exactly one path *)

Lemma libraries_at_run s key :
  libraries_at domain_id key s =
    (Return (candidates s key), set_libraries (registry_after s key) s).
Proof. reflexivity. Qed.

Lemma add_table_unfold key q s h w evs :
  search (candidates s key) (os s) h w evs →
  add_table key q s =
    add_table_after_loop key q h
      (State (registry_after s key) (tables s) (handles s) w (trace s ++ evs)).
Proof.
  intros Hs. unfold add_table, bind. rewrite libraries_at_run.
  by rewrite (open_candidates_search _ (set_libraries (registry_after s key) s) h w evs).
Qed.

Lemma add_table_complete key q s r s' :
  add_table_path key q s r s' →
  add_table key q s = (r, s').
Proof.
  destruct 1 as [w evs Hs Hgen Hkey|w evs msg w' Hs Hgen Herr
                |p w evs w1 msg w2 Hs Hfn Herr|p w evs t w1 Hs Hfn Hver
                |p w evs t w1 Hs Hfn Hver];
    rewrite (add_table_unfold _ _ _ _ _ _ Hs);
    unfold add_table_after_loop, unwinding, bind; cbn.
  - rewrite Hgen, bool_decide_eq_true_2 by done. done.
  - assert (negb is_generic_device_supported && bool_decide (key = generic_device)
            = false) as ->.
    { destruct Hgen as [->|Hne]; [done|].
      rewrite bool_decide_eq_false_2 by done. apply andb_false_r. }
    unfold bind, cerr_error_msg; cbn. rewrite Herr. run.
    by rewrite <- app_assoc.
  - unfold get_func; cbn. rewrite Hfn. cbn.
    unfold cerr_error_msg; cbn. rewrite Herr. run.
    by rewrite <- !app_assoc.
  - unfold get_func; cbn. rewrite Hfn. cbn.
    rewrite bool_decide_eq_true_2 by done. run.
    by rewrite <- !app_assoc.
  - unfold get_func; cbn. rewrite Hfn. cbn.
    rewrite bool_decide_eq_false_2 by (intros Hne; by apply Hne).
    unfold handles_assign, displaced; cbn.
    destruct (handles s !! key) as [[old|]|]; run;
      by rewrite <- !app_assoc.
Qed.

Lemma add_table_path_total key q s : ∃ r s', add_table_path key q s r s'.
Proof.
  destruct (search_total (candidates s key) (os s)) as ([p|] & w & evs & Hs).
  - destruct (GET_FUNC p (table_names domain_id) w) as [[t|] w1] eqn:Hfn.
    + destruct (decide (version (load w1 t) = SPEC_VERSION)).
      * eexists _, _. by eapply path_loaded.
      * eexists _, _. by eapply path_specification_mismatch.
    + destruct (ERROR_MSG w1) as [msg w2] eqn:Herr.
      eexists _, _. by eapply path_function_not_found.
  - destruct is_generic_device_supported eqn:Hgen.
    + destruct (ERROR_MSG w) as [msg w'] eqn:Herr.
      eexists _, _. eapply path_backend_not_found; eauto.
    + destruct (decide (key = generic_device)) as [Hkey|Hkey].
      * eexists _, _. by eapply path_unsupported_device.
      * destruct (ERROR_MSG w) as [msg w'] eqn:Herr.
        eexists _, _. eapply path_backend_not_found; eauto.
Qed.

Lemma add_table_sound key q s r s' :
  add_table key q s = (r, s') →
  add_table_path key q s r s'.
Proof.
  intros Hrun. destruct (add_table_path_total key q s) as (r0 & s0 & Hp).
  rewrite (add_table_complete _ _ _ _ _ Hp) in Hrun. by simplify_eq.
Qed.

(** ** [operator[]] *)

Lemma resolve_miss key q s :
  tables s !! key = None →
  resolve (key, q) s =
    add_table key q s.
Proof. intros Hk. unfold resolve; cbn. by rewrite Hk. Qed.

Lemma resolve_hit key q s v :
  tables s !! key = Some v →
  resolve (key, q) s = (Return (ref_cache key), s).
Proof. intros Hk. unfold resolve; cbn. by rewrite Hk. Qed.

Lemma open_attempts_app evs1 evs2 :
  open_attempts (evs1 ++ evs2) = open_attempts evs1 ++ open_attempts evs2.
Proof. apply omap_app. Qed.

Lemma opened_app evs1 evs2 : opened (evs1 ++ evs2) = opened evs1 ++ opened evs2.
Proof. apply omap_app. Qed.

Lemma open_attempts_failed_opens names : open_attempts (failed_opens names) = names.
Proof. induction names as [|n names IH]; cbn; [done|]. by f_equal. Qed.

Lemma opened_failed_opens names : opened (failed_opens names) = [].
Proof. induction names as [|n names IH]; cbn; done. Qed.

(** The search leaves a run of failed opens, ended by the one that
    succeeded if any did. *)
Lemma search_split libs w h w' evs :
  search libs w h w' evs →
  (h = None ∧ evs = failed_opens libs) ∨
  (∃ failed good rest p,
      h = Some p ∧ libs = failed ++ good :: rest ∧
      evs = failed_opens failed ++ [ev_open good (Some p)]).
Proof.
  induction 1 as [w|libname rest w p w' Ho|libname rest w w1 h w' evs Ho _ IH].
  - by left.
  - right. by exists [], libname, rest, p.
  - destruct IH as [[-> ->]|(failed & good & rest' & p & -> & -> & ->)].
    + by left.
    + right. by exists (libname :: failed), good, rest', p.
Qed.

Lemma search_opened libs w p w' evs :
  search libs w (Some p) w' evs → opened evs = [p].
Proof.
  intros Hs.
  destruct (search_split _ _ _ _ _ Hs)
    as [[[=] _]|(failed & good & rest & p' & [= <-] & _ & ->)].
  by rewrite opened_app, opened_failed_opens.
Qed.

(** * The claims *)

(** Every successful first resolve comes about in one way: a candidate
    opened, the symbol resolved in it, and the version read there is the
    expected one. *)
Lemma first_resolve_success_inv key q s r s' :
  tables s !! key = None →
  resolve (key, q) s = (Return r, s') →
  ∃ p t w evs w1,
    search (candidates s key) (os s) (Some p) w evs ∧
    GET_FUNC p (table_names domain_id) w = (Some t, w1) ∧
    version (load w1 t) = SPEC_VERSION ∧
    r = ref_image t.
Proof.
  intros Hmiss Hrun. rewrite resolve_miss in Hrun by done.
  apply add_table_sound in Hrun.
  inversion Hrun as [| | | |p w evs t w1 Hs Hfn Hver]; subst.
  by exists p, t, w, evs, w1.
Qed.

(** C1 (amended): for a device that is not in [tables], when a candidate
    opens with a token [p], the symbol of the domain resolves in it to a
    pointer [t] and the table read there has the expected version, resolve
    succeeds: it leaves [p] in the Handle Cache and a copy of the table [*t]
    in the Function Table Cache under the device, and it returns the
    reference [*t] into the image of the plugin, which is not the reference
    to the cached copy but denotes the same value. *)
Theorem first_resolve_caches_and_returns_image key q s p w evs t w1 :
  tables s !! key = None →
  search (candidates s key) (os s) (Some p) w evs →
  GET_FUNC p (table_names domain_id) w = (Some t, w1) →
  version (load w1 t) = SPEC_VERSION →
  ∃ s',
    resolve (key, q) s = (Return (ref_image t), s') ∧
    handles s' !! key = Some (Some p) ∧
    tables s' !! key = Some (load (os s') t) ∧
    ref_image t ≠ ref_cache key ∧
    deref (ref_image t) s' = deref (ref_cache key) s'.
Proof.
  intros Hmiss Hs Hfn Hver. eexists. rewrite resolve_miss by done.
  split; [apply add_table_complete; by eapply path_loaded|].
  cbn. by rewrite !lookup_insert_eq.
Qed.

(** C2: a resolve call that fails, whatever the exception, leaves [tables]
    and [handles] as they were; the device is still absent from [tables],
    so the next resolve for it runs [add_table] again. *)
Theorem failed_resolve_leaves_caches key q s e s' :
  resolve (key, q) s = (Throw e, s') →
  tables s' = tables s ∧ handles s' = handles s ∧
  tables s' !! key = None ∧
  ∀ q', resolve (key, q') s' = add_table key q' s'.
Proof.
  intros Hrun.
  destruct (tables s !! key) as [v|] eqn:Hk.
  { by rewrite (resolve_hit _ _ _ _ Hk) in Hrun. }
  rewrite resolve_miss in Hrun by done.
  apply add_table_sound in Hrun.
  assert (tables s' = tables s ∧ handles s' = handles s) as [Ht Hh]
    by (inversion Hrun; subst; done).
  split_and!; [done|done|by rewrite Ht|].
  intros q'. apply resolve_miss. by rewrite Ht.
Qed.

(** What each path of [add_table] leaves in [tables]: nothing new, or one
    new entry under the requested device. *)
Lemma add_table_tables key q s r s' :
  add_table key q s = (r, s') →
  tables s' = tables s ∨ ∃ v, tables s' = <[key := v]> (tables s).
Proof.
  intros Hrun. apply add_table_sound in Hrun.
  inversion Hrun; subst; cbn; eauto.
Qed.

(** C3 (amended): a resolve for a device that is in [tables] returns the
    reference to that entry and leaves the whole state as it was: no open,
    no symbol lookup, no write to either map.  Hence after a first resolve
    that loaded an uncached device, a second resolve for it adds nothing to
    the trace: the open attempts of the two calls are those of the first,
    of which exactly one, the last, succeeded.  And no resolve call changes
    an entry that is in [tables]. *)
Theorem cached_resolve_served_from_cache key v s :
  tables s !! key = Some v →
  (∀ q, resolve (key, q) s = (Return (ref_cache key), s)) ∧
  (∀ dq, tables (resolve dq s).2 !! key = Some v) ∧
  (∀ s0 q0 r0 q,
      tables s0 !! key = None →
      resolve (key, q0) s0 = (Return r0, s) →
      ∃ evs failed good p,
        trace (resolve (key, q) s).2 = trace s0 ++ evs ∧
        open_attempts evs = failed ++ [good] ∧
        opened evs = [p] ∧
        candidates s0 key !! length failed = Some good ∧
        failed = take (length failed) (candidates s0 key)).
Proof.
  intros Hk. split_and!.
  - intros q. by eapply resolve_hit.
  - intros [key' q]. destruct (tables s !! key') as [v'|] eqn:Hk'.
    + by rewrite (resolve_hit _ _ _ _ Hk').
    + rewrite resolve_miss by done.
      destruct (add_table key' q s) as [r s'] eqn:Hrun. cbn.
      destruct (add_table_tables _ _ _ _ _ Hrun) as [->|[v' ->]]; [done|].
      rewrite lookup_insert_ne; [done|congruence].
  - intros s0 q0 r0 q Hmiss Hfirst.
    rewrite (resolve_hit _ _ _ _ Hk). cbn.
    rewrite resolve_miss in Hfirst by done. apply add_table_sound in Hfirst.
    inversion Hfirst as [| | | |p w evs t w1 Hs Hfn Hver]; subst. cbn.
    destruct (search_split _ _ _ _ _ Hs)
      as [[? _]|(failed & good & rest & p' & [= <-] & Hlibs & ->)]; [done|].
    eexists _, failed, good, p. split; [done|].
    rewrite Hlibs.
    rewrite !open_attempts_app, !opened_app, open_attempts_failed_opens,
      opened_failed_opens.
    split_and!.
    + cbn. destruct (displaced s0 key); cbn; by rewrite ?app_nil_r.
    + cbn. by destruct (displaced s0 key).
    + by rewrite list_lookup_middle.
    + by rewrite take_app_length.
Qed.

(** The trace a run of [add_table] appends: the opens of the search, then
    events among which there is no further open. *)
Lemma add_table_trace key q s r s' :
  add_table_path key q s r s' →
  ∃ h w evs more,
    search (candidates s key) (os s) h w evs ∧
    trace s' = trace s ++ evs ++ more ∧
    open_attempts more = [] ∧
    match h with
    | None => ∃ e, r = Throw e
    | Some p =>
        ∃ res more',
          res = (GET_FUNC p (table_names domain_id) w).1 ∧
          more = ev_func p (table_names domain_id) res :: more' ∧
          ∀ r0, r = Return r0 →
            ∃ t, res = Some t ∧ r0 = ref_image t ∧
                 handles s' !! key = Some (Some p) ∧
                 tables s' !! key = Some (load (os s') t)
    end.
Proof.
  destruct 1 as [w evs Hs Hgen Hkey|w evs msg w' Hs Hgen Herr
                |p w evs w1 msg w2 Hs Hfn Herr|p w evs t w1 Hs Hfn Hver
                |p w evs t w1 Hs Hfn Hver].
  - exists None, w, evs, []. rewrite app_nil_r. eauto 6.
  - exists None, w, evs, [ev_cerr msg]. eauto 6.
  - exists (Some p), w, evs, [ev_func p (table_names domain_id) None; ev_cerr msg; ev_free p].
    split_and!; [done..|]. eexists _, _. rewrite Hfn. split_and!; [done..|].
    intros r0 [=].
  - exists (Some p), w, evs, [ev_func p (table_names domain_id) (Some t); ev_free p].
    split_and!; [done..|]. eexists _, _. rewrite Hfn. split_and!; [done..|].
    intros r0 [=].
  - eexists (Some p), w, evs, _.
    split_and!; [done|reflexivity|by destruct (displaced s key)|].
    eexists _, _. rewrite Hfn. split_and!; [done..|].
    intros r0 [= <-]. exists t. cbn. by rewrite !lookup_insert_eq.
Qed.

(** C4: for a device that is not in [tables], the names passed to
    [GET_LIB_HANDLE] are a prefix of the candidate list of the registry, in
    list order; every attempt but the last failed and the attempts end with
    the first name that opens, whose token is the one the symbol is looked
    up in and, on success, the one whose table is cached.  In particular for
    candidates [[A; B]] where [A] does not open and [B] does, the attempts
    are [A] then [B], and a table that results is the one [B] exports. *)
Theorem candidates_opened_in_order key q s r s' :
  tables s !! key = None →
  resolve (key, q) s = (r, s') →
  (∃ h w evs more,
      search (candidates s key) (os s) h w evs ∧
      trace s' = trace s ++ evs ++ more ∧
      open_attempts more = [] ∧
      ((h = None ∧ evs = failed_opens (candidates s key) ∧ ∃ e, r = Throw e) ∨
       (∃ failed good rest p res more',
           h = Some p ∧
           candidates s key = failed ++ good :: rest ∧
           evs = failed_opens failed ++ [ev_open good (Some p)] ∧
           more = ev_func p (table_names domain_id) res :: more' ∧
           ∀ r0, r = Return r0 →
             ∃ t, res = Some t ∧ r0 = ref_image t ∧
                  handles s' !! key = Some (Some p) ∧
                  tables s' !! key = Some (load (os s') t)))) ∧
  (∀ A B w1 pB w2,
      candidates s key = [A; B] →
      GET_LIB_HANDLE A (os s) = (None, w1) →
      GET_LIB_HANDLE B w1 = (Some pB, w2) →
      ∃ more,
        trace s' = trace s ++ [ev_open A None; ev_open B (Some pB)] ++ more ∧
        open_attempts more = [] ∧
        ∀ r0, r = Return r0 →
          ∃ t w3, GET_FUNC pB (table_names domain_id) w2 = (Some t, w3) ∧
                  r0 = ref_image t ∧
                  handles s' !! key = Some (Some pB) ∧
                  tables s' !! key = Some (load (os s') t)).
Proof.
  intros Hmiss Hrun. rewrite resolve_miss in Hrun by done.
  apply add_table_sound, add_table_trace in Hrun.
  destruct Hrun as (h & w & evs & more & Hs & Htr & Hno & Hh). split.
  - exists h, w, evs, more. split_and!; [done..|].
    destruct (search_split _ _ _ _ _ Hs)
      as [[-> ->]|(failed & good & rest & p & -> & Hlibs & ->)].
    + by left.
    + right. destruct Hh as (res & more' & _ & -> & Hret).
      by exists failed, good, rest, p, res, more'.
  - intros A B wa pB wb Hlibs HA HB.
    assert (search (candidates s key) (os s) (Some pB) wb
              [ev_open A None; ev_open B (Some pB)]) as Hs'.
    { rewrite Hlibs. eapply search_miss; [done|]. by apply search_hit. }
    destruct (search_functional _ _ _ _ _ _ _ _ Hs Hs') as (-> & -> & ->).
    destruct Hh as (res & more' & Hfn & -> & Hret).
    eexists. split_and!; [done..|].
    intros r0 Hr0. destruct (Hret r0 Hr0) as (t & Hres & ? & ? & ?).
    exists t, (GET_FUNC pB (table_names domain_id) wb).2.
    split_and!; [|done..]. rewrite <- Hres, Hfn. apply surjective_pairing.
Qed.

(** The exit of resolve when the search ends without a token. *)
Lemma resolve_search_none key q s w evs :
  tables s !! key = None →
  search (candidates s key) (os s) None w evs →
  resolve (key, q) s =
    if negb is_generic_device_supported && bool_decide (key = generic_device)
    then
      (Throw (unsupported_device (get_device q)),
       State (registry_after s key) (tables s) (handles s) w (trace s ++ evs))
    else
      (Throw backend_not_found,
       State (registry_after s key) (tables s) (handles s) (ERROR_MSG w).2
         (trace s ++ evs ++ [ev_cerr (ERROR_MSG w).1])).
Proof.
  intros Hmiss Hs. rewrite resolve_miss by done.
  destruct (negb is_generic_device_supported && bool_decide (key = generic_device))
    eqn:Hc; apply add_table_complete.
  - apply andb_true_iff in Hc as [Hgen Hkey].
    apply negb_true_iff in Hgen. apply bool_decide_eq_true in Hkey.
    by apply path_unsupported_device.
  - eapply path_backend_not_found; [done| |apply surjective_pairing].
    apply andb_false_iff in Hc as [Hc|Hc].
    + left. by apply negb_false_iff.
    + right. by apply bool_decide_eq_false in Hc.
Qed.

(** The two exits of resolve when no candidate opened, with the operand of
    the insertion into [std::cerr] as [ERROR_MSG] returned it, null
    included. *)
Lemma no_candidate_opens key q s w evs :
  tables s !! key = None →
  search (candidates s key) (os s) None w evs →
  evs = failed_opens (candidates s key) ∧
  resolve (key, q) s =
    if negb is_generic_device_supported && bool_decide (key = generic_device)
    then
      (Throw (unsupported_device (get_device q)),
       State (registry_after s key) (tables s) (handles s) w (trace s ++ evs))
    else
      (Throw backend_not_found,
       State (registry_after s key) (tables s) (handles s) (ERROR_MSG w).2
         (trace s ++ evs ++ [ev_cerr (ERROR_MSG w).1])).
Proof.
  intros Hmiss Hs. split; [|by apply resolve_search_none].
  by destruct (search_split _ _ _ _ _ Hs) as [[_ ->]|(? & ? & ? & ? & [=] & _)].
Qed.

(** ** The stream [std::cerr] *)

Lemma cerr_bad_app evs1 evs2 :
  cerr_bad (evs1 ++ evs2) = cerr_bad evs1 || cerr_bad evs2.
Proof. apply existsb_app. Qed.

Lemma cerr_output_app evs1 evs2 :
  cerr_output (evs1 ++ evs2)
  = cerr_output evs1 ++ (if cerr_bad evs1 then [] else cerr_output evs2).
Proof.
  induction evs1 as [|e evs1 IH]; [done|].
  destruct e as [| | |[msg|]| |]; cbn; by rewrite ?IH.
Qed.

(** The search inserts nothing into the stream. *)
Lemma search_no_insertion libs w h w' evs :
  search libs w h w' evs → cerr_bad evs = false ∧ cerr_output evs = [].
Proof. induction 1; done. Qed.

(** C5, where the code departs from the claim: for a device that is not in
    [tables], is not the unsupported [generic_device] and has an empty
    candidate list, no library is opened, so a loader that has no error
    pending yields a null [ERROR_MSG]; resolve then inserts the null pointer
    into [std::cerr] and throws [backend_not_found].  No diagnostic is
    written, the stream is left with [badbit] set, and nothing that is
    inserted afterwards is written either. *)
Theorem empty_candidates_null_diagnostic key q s :
  tables s !! key = None →
  candidates s key = [] →
  negb is_generic_device_supported && bool_decide (key = generic_device) = false →
  (ERROR_MSG (os s)).1 = None →
  ∃ s',
    resolve (key, q) s = (Throw backend_not_found, s') ∧
    trace s' = trace s ++ [ev_cerr None] ∧
    open_attempts (trace s') = open_attempts (trace s) ∧
    cerr_output (trace s') = cerr_output (trace s) ∧
    cerr_bad (trace s') = true ∧
    ∀ later, cerr_output (trace s' ++ later) = cerr_output (trace s').
Proof.
  intros Hmiss Hc Hgen Hnull.
  assert (search (candidates s key) (os s) None (os s) []) as Hs
    by (rewrite Hc; constructor).
  rewrite (resolve_search_none key q s _ _ Hmiss Hs), Hgen, Hnull.
  eexists. split; [reflexivity|]. cbn [trace app].
  assert (cerr_bad (trace s ++ [ev_cerr None]) = true) as Hbad.
  { rewrite cerr_bad_app. cbn. apply orb_true_r. }
  split_and!; [done| | |done|].
  - rewrite open_attempts_app. cbn. apply app_nil_r.
  - rewrite cerr_output_app. cbn. by destruct (cerr_bad (trace s)); rewrite app_nil_r.
  - intros later. by rewrite cerr_output_app, Hbad, app_nil_r.
Qed.

(** C6: for a device that is not in [tables], when a candidate opened with
    token [p] and the symbol resolved to [t] but the version read at [t] is
    not [SPEC_VERSION], resolve throws [specification_mismatch], the token
    [p] is released by [FREE_LIB_HANDLE], and [tables] and [handles] are as
    before the call. *)
Theorem version_mismatch_releases_and_caches_nothing key q s p w evs t w1 :
  tables s !! key = None →
  search (candidates s key) (os s) (Some p) w evs →
  GET_FUNC p (table_names domain_id) w = (Some t, w1) →
  version (load w1 t) ≠ SPEC_VERSION →
  ∃ s',
    resolve (key, q) s = (Throw specification_mismatch, s') ∧
    trace s' =
      trace s ++ evs ++ [ev_func p (table_names domain_id) (Some t); ev_free p] ∧
    os s' = FREE_LIB_HANDLE p w1 ∧
    opened evs = [p] ∧
    tables s' = tables s ∧ handles s' = handles s.
Proof.
  intros Hmiss Hs Hfn Hver. eexists. rewrite resolve_miss by done.
  split; [apply add_table_complete; by eapply path_specification_mismatch|].
  cbn. split_and!; try done.
  destruct (search_split _ _ _ _ _ Hs)
    as [[[=] _]|(failed & good & rest & p' & [= <-] & _ & ->)].
  by rewrite opened_app, opened_failed_opens.
Qed.

(** C7: for a device that is not in [tables], when a candidate opened with
    token [p] and the lookup of the domain's symbol gave null, resolve
    writes the loader's error message to [std::cerr], throws
    [function_not_found], and the token [p] opened in this call is released
    by [FREE_LIB_HANDLE] while the exception leaves [add_table].  The
    message is the one [ERROR_MSG] returns after the failed lookup; it
    reaches a stream that is good as a line of its own. *)
Theorem missing_symbol_releases_handle key q s p w evs w1 :
  tables s !! key = None →
  search (candidates s key) (os s) (Some p) w evs →
  GET_FUNC p (table_names domain_id) w = (None, w1) →
  ∃ s',
    resolve (key, q) s = (Throw function_not_found, s') ∧
    trace s' =
      trace s ++ evs ++
        [ev_func p (table_names domain_id) None; ev_cerr (ERROR_MSG w1).1; ev_free p] ∧
    os s' = FREE_LIB_HANDLE p (ERROR_MSG w1).2 ∧
    opened evs = [p] ∧
    freed (evs ++ [ev_func p (table_names domain_id) None;
                   ev_cerr (ERROR_MSG w1).1; ev_free p]) = [p] ∧
    tables s' = tables s ∧ handles s' = handles s ∧
    ∀ msg, (ERROR_MSG w1).1 = Some msg → cerr_bad (trace s) = false →
           cerr_output (trace s') = cerr_output (trace s) ++ [msg].
Proof.
  intros Hmiss Hs Hfn. eexists. rewrite resolve_miss by done.
  split.
  { apply add_table_complete.
    eapply path_function_not_found; [done..|apply surjective_pairing]. }
  cbn. split_and!; try done.
  - destruct (search_split _ _ _ _ _ Hs)
      as [[[=] _]|(failed & good & rest & p' & [= <-] & _ & ->)].
    by rewrite opened_app, opened_failed_opens.
  - destruct (search_split _ _ _ _ _ Hs)
      as [[[=] _]|(failed & good & rest & p' & [= <-] & _ & ->)].
    unfold freed. rewrite !omap_app. cbn.
    assert (omap (λ e : event, match e with ev_free p0 => Some p0 | _ => None end)
              (failed_opens failed) = []) as ->; [|done].
    clear. by induction failed.
  - intros msg Hmsg Hgood.
    destruct (search_no_insertion _ _ _ _ _ Hs) as [Hb Ho].
    rewrite !cerr_output_app, Hgood, Hb, Ho, Hmsg. done.
Qed.

Lemma cache_writes_app evs1 evs2 :
  cache_writes (evs1 ++ evs2) = cache_writes evs1 ++ cache_writes evs2.
Proof. apply omap_app. Qed.

Lemma cache_writes_search libs w h w' evs :
  search libs w h w' evs → cache_writes evs = [].
Proof. induction 1; done. Qed.

Lemma cache_writes_release old : cache_writes (release_events old) = [].
Proof. by destruct old. Qed.

(** What a call of [add_table] writes to the maps. *)
Lemma add_table_writes key q s r s' :
  add_table key q s = (r, s') →
  ∃ evs, trace s' = trace s ++ evs ∧
    ((cache_writes evs = [] ∧ tables s' = tables s ∧ handles s' = handles s ∧
      ∃ e, r = Throw e) ∨
     (∃ p t,
         cache_writes evs = [ev_store_handle key (Some p); ev_store_table key] ∧
         opened evs = [p] ∧
         ev_func p (table_names domain_id) (Some t) ∈ evs ∧
         tables s' = <[key := load (os s') t]> (tables s) ∧
         handles s' = <[key := Some p]> (handles s) ∧
         r = Return (ref_image t))).
Proof.
  intros Hrun. apply add_table_sound in Hrun.
  inversion Hrun as [w evs Hs|w evs msg w' Hs|p w evs w1 msg w2 Hs
                    |p w evs t w1 Hs|p w evs t w1 Hs]; subst; cbn;
    (eexists; split; [reflexivity|]);
    rewrite ?cache_writes_app, (cache_writes_search _ _ _ _ _ Hs).
  - left. eauto.
  - left. eauto.
  - left. eauto.
  - left. eauto.
  - right. exists p, t. cbn.
    fold (cache_writes (release_events (displaced s key) ++ [ev_store_table key])).
    rewrite cache_writes_app, cache_writes_release.
    rewrite opened_app, (search_opened _ _ _ _ _ Hs).
    split_and!; try done.
    + cbn. fold (opened (release_events (displaced s key) ++ [ev_store_table key])).
      rewrite opened_app. by destruct (displaced s key).
    + apply elem_of_app. right. apply elem_of_cons. by left.
Qed.

Lemma resolve_preserves_backed dq s :
  backed s → backed (resolve dq s).2.
Proof.
  intros Hb. destruct dq as [key q].
  destruct (tables s !! key) as [v|] eqn:Hk.
  { by rewrite (resolve_hit _ _ _ _ Hk). }
  rewrite resolve_miss by done.
  destruct (add_table key q s) as [r s'] eqn:Hrun. cbn.
  destruct (add_table_writes _ _ _ _ _ Hrun)
    as (evs & _ & [(_ & Ht & Hh & _)|(p & t & _ & _ & _ & Ht & Hh & _)]);
    intros k; rewrite Ht, Hh.
  - apply Hb.
  - destruct (decide (k = key)) as [->|Hne].
    + rewrite !lookup_insert_eq. eauto.
    + rewrite !lookup_insert_ne by done. apply Hb.
Qed.

Lemma reachable_backed s : reachable s → backed s.
Proof.
  induction 1 as [reg w|dq s _ IH|w s _ IH].
  - intros key [v Hv]. cbn in Hv. by rewrite lookup_empty in Hv.
  - by apply resolve_preserves_backed.
  - exact IH.
Qed.

(** C8: in every state a program can reach and after every resolve call
    made there, each device with an entry in [tables] has a non-null token
    in [handles]; a resolve call leaves the tokens of the devices already
    in [tables] in place; and the writes a call makes to the two maps are
    either none, or the assignment to [handles[key]] followed by the
    assignment to [tables[key]], in this order, where the token stored is
    the one opened in this call and the table stored is read at the pointer
    that the symbol lookup in this token returned. *)
Theorem handle_held_before_table_cached dq s r s' :
  reachable s →
  resolve dq s = (r, s') →
  backed s ∧ backed s' ∧
  (∀ key, is_Some (tables s !! key) → handles s' !! key = handles s !! key) ∧
  ∃ evs, trace s' = trace s ++ evs ∧
    (cache_writes evs = [] ∨
     ∃ p t, cache_writes evs = [ev_store_handle dq.1 (Some p); ev_store_table dq.1] ∧
            opened evs = [p] ∧
            ev_func p (table_names domain_id) (Some t) ∈ evs ∧
            handles s' !! dq.1 = Some (Some p) ∧
            tables s' !! dq.1 = Some (load (os s') t)).
Proof.
  intros Hreach Hrun. pose proof (reachable_backed _ Hreach) as Hb.
  split; [done|]. split.
  { replace s' with (resolve dq s).2 by by rewrite Hrun.
    by apply resolve_preserves_backed. }
  destruct dq as [key q]. cbn.
  destruct (tables s !! key) as [v|] eqn:Hk.
  { rewrite (resolve_hit _ _ _ _ Hk) in Hrun. simplify_eq. split; [done|].
    exists []. rewrite app_nil_r. by eauto. }
  rewrite resolve_miss in Hrun by done.
  destruct (add_table_writes _ _ _ _ _ Hrun)
    as (evs & Htr & [(Hw & Ht & Hh & _)|(p & t & Hw & Hop & Hfn & Ht & Hh & _)]).
  - split; [by rewrite Hh|]. exists evs. eauto.
  - split.
    + intros k [v' Hv']. rewrite Hh, lookup_insert_ne; [done|congruence].
    + exists evs. split; [done|]. right. exists p, t.
      rewrite Ht, Hh, !lookup_insert_eq. eauto.
Qed.

Lemma add_table_path_queue key q1 q2 s r s' :
  add_table_path key q1 s r s' →
  ∃ r', add_table_path key q2 s r' s' ∧ outcome_kind r' = outcome_kind r ∧
        (∀ d, r = Throw (unsupported_device d) → d = get_device q1).
Proof.
  destruct 1.
  - eexists. split; [by eapply path_unsupported_device|]. split; [done|congruence].
  - eexists. split; [by eapply path_backend_not_found|]. done.
  - eexists. split; [by eapply path_function_not_found|]. done.
  - eexists. split; [by eapply path_specification_mismatch|]. done.
  - eexists. split; [by eapply path_loaded|]. done.
Qed.

(** C9: for a device and two queues, the two resolve calls from the same
    state end in the same state and with the same outcome up to the payload
    of [unsupported_device], which is [get_device()] of the queue passed;
    two queues with the same device give the same outcome altogether. *)
Theorem queue_only_in_diagnostic key q1 q2 s :
  (resolve (key, q1) s).2 = (resolve (key, q2) s).2 ∧
  outcome_kind (resolve (key, q1) s).1 = outcome_kind (resolve (key, q2) s).1 ∧
  (∀ d, (resolve (key, q1) s).1 = Throw (unsupported_device d) → d = get_device q1) ∧
  (∀ ref, (resolve (key, q1) s).1 = Return ref →
          (resolve (key, q2) s).1 = Return ref ∧
          deref ref (resolve (key, q1) s).2 = deref ref (resolve (key, q2) s).2) ∧
  (get_device q1 = get_device q2 → resolve (key, q1) s = resolve (key, q2) s).
Proof.
  destruct (tables s !! key) as [v|] eqn:Hk.
  { rewrite !(resolve_hit _ _ _ _ Hk). cbn. split_and!; done. }
  rewrite !resolve_miss by done.
  destruct (add_table key q1 s) as [r s'] eqn:Hrun. apply add_table_sound in Hrun.
  destruct (add_table_path_queue _ _ q2 _ _ _ Hrun) as (r' & Hpath & Hkind & Hpay).
  rewrite (add_table_complete _ _ _ _ _ Hpath). cbn.
  split_and!; try done.
  - intros ref ->. destruct r' as [ref'|e]; cbn in Hkind; by simplify_eq.
  - intros Hdev. f_equal.
    destruct r as [ref|e], r' as [ref'|e']; cbn in Hkind; simplify_eq; [done|].
    destruct e, e'; cbn in Hkind; simplify_eq; try done.
    rewrite (Hpay _ eq_refl), Hdev. by inversion Hpath.
Qed.

(** ** A device the registry does not list *)

Lemma candidates_registry_after s key :
  candidates (set_libraries (registry_after s key) s) key = candidates s key.
Proof.
  unfold candidates, registry_after; cbn.
  rewrite lookup_insert_eq; cbn. by rewrite lookup_insert_eq.
Qed.

Lemma registry_after_idem s key :
  registry_after (set_libraries (registry_after s key) s) key = registry_after s key.
Proof.
  unfold registry_after at 1. rewrite candidates_registry_after.
  unfold registry_after; cbn. rewrite lookup_insert_eq; cbn.
  by rewrite !insert_insert_eq.
Qed.

(** C10: for a device that is not in [tables] and for which the registry
    has no entry (none for the domain, or none for the device under the
    domain), resolve ends exactly as it does from the state in which the
    registry lists the device with an empty candidate list: no
    [GET_LIB_HANDLE] call is made, and the call throws [unsupported_device]
    for [generic_device] without generic support and otherwise inserts what
    [ERROR_MSG] returns in the state of the loader on entry (null when no
    error is pending there) into [std::cerr] and throws
    [backend_not_found]. *)
Theorem unlisted_device_like_empty_list key q s :
  tables s !! key = None →
  default ∅ (libraries s !! domain_id) !! key = None →
  let listed_empty :=
    set_libraries
      (<[domain_id := <[key := []]> (default ∅ (libraries s !! domain_id))]>
         (libraries s)) s in
  candidates listed_empty key = [] ∧
  resolve (key, q) s = resolve (key, q) listed_empty ∧
  open_attempts (trace (resolve (key, q) s).2) = open_attempts (trace s) ∧
  resolve (key, q) s =
    if negb is_generic_device_supported && bool_decide (key = generic_device)
    then (Throw (unsupported_device (get_device q)), listed_empty)
    else (Throw backend_not_found,
          log (ev_cerr (ERROR_MSG (os s)).1) (set_os (ERROR_MSG (os s)).2 listed_empty)).
Proof.
  intros Hmiss Hnone listed_empty.
  assert (candidates s key = []) as Hc by (unfold candidates; by rewrite Hnone).
  assert (listed_empty = set_libraries (registry_after s key) s) as Hle.
  { unfold listed_empty, registry_after. by rewrite Hc. }
  assert (search (candidates s key) (os s) None (os s) []) as Hs
    by (rewrite Hc; constructor).
  pose proof (resolve_search_none key q s _ _ Hmiss Hs) as Hrun.
  assert (search (candidates listed_empty key) (os listed_empty) None (os s) []) as Hs'.
  { rewrite Hle, candidates_registry_after, Hc. constructor. }
  pose proof (resolve_search_none key q listed_empty _ _ Hmiss Hs') as Hrun'.
  rewrite Hle, registry_after_idem in Hrun'. rewrite <- Hle in Hrun'.
  split; [by rewrite Hle, candidates_registry_after|].
  destruct (negb is_generic_device_supported && bool_decide (key = generic_device)).
  - rewrite Hrun, Hrun'. cbn. rewrite app_nil_r, Hle. by split_and!.
  - rewrite Hrun, Hrun'. cbn. rewrite Hle. split_and!; try done.
    rewrite omap_app. cbn. by rewrite app_nil_r.
Qed.

End properties.

(** * Runs on the stub platform *)

Module StubRuns.
Import Stub.

(** C1 as stated fails: the first resolve for [cpu] succeeds and caches the
    table of [libB.so], but the reference it returns is [*t], into the image
    of the plugin, not the reference to the entry of [tables]. *)
Lemma first_resolve_returns_image_reference :
  tables start !! cpu = None ∧
  (resolve (I := blas_build) (cpu, q1) start).1
    = Return (ref_image ("libB.so", "blas_table")) ∧
  (resolve (I := blas_build) (cpu, q1) start).1 ≠ Return (ref_cache cpu) ∧
  tables (resolve (I := blas_build) (cpu, q1) start).2 !! cpu = Some (Table 1 "B").
Proof.
  split_and!;
    [done|vm_compute; reflexivity|vm_compute; congruence|vm_compute; reflexivity].
Qed.

Lemma first_resolve_caches_and_returns_image_witness :
  tables start !! cpu = None ∧
  search (candidates (I := blas_build) start cpu) (os start) (Some "libB.so")
    (stub_open "libB.so" (stub_open "libA.so" world0).2).2
    [ev_open "libA.so" None; ev_open "libB.so" (Some "libB.so")] ∧
  GET_FUNC "libB.so" (table_names blas) (stub_open "libB.so" (stub_open "libA.so" world0).2).2
    = (Some ("libB.so", "blas_table"), (stub_open "libB.so" (stub_open "libA.so" world0).2).2) ∧
  version (load (stub_open "libB.so" (stub_open "libA.so" world0).2).2
             ("libB.so", "blas_table")) = SPEC_VERSION ∧
  ∃ s',
    resolve (I := blas_build) (cpu, q1) start
      = (Return (ref_image ("libB.so", "blas_table")), s') ∧
    handles s' !! cpu = Some (Some "libB.so") ∧
    tables s' !! cpu = Some (load (os s') ("libB.so", "blas_table")) ∧
    ref_image ("libB.so", "blas_table") ≠ ref_cache cpu ∧
    deref (ref_image ("libB.so", "blas_table")) s' = deref (ref_cache cpu) s'.
Proof.
  assert (search (candidates (I := blas_build) start cpu) (os start) (Some "libB.so")
            (stub_open "libB.so" (stub_open "libA.so" world0).2).2
            [ev_open "libA.so" None; ev_open "libB.so" (Some "libB.so")]) as Hs.
  { exact (search_miss (P := platform) "libA.so" ["libB.so"] world0
             (stub_open "libA.so" world0).2 _ _ _ eq_refl
             (search_hit (P := platform) "libB.so" [] (stub_open "libA.so" world0).2
                "libB.so" _ eq_refl)). }
  split_and!; [reflexivity|exact Hs|reflexivity|reflexivity|].
  exact (first_resolve_caches_and_returns_image (I := blas_build) cpu q1 start
           "libB.so" _ _ ("libB.so", "blas_table") _ eq_refl Hs eq_refl eq_refl).
Defined.

Lemma failed_resolve_leaves_caches_witness :
  resolve (I := blas_build) (gpu, q1) start
    = (Throw specification_mismatch, (resolve (I := blas_build) (gpu, q1) start).2) ∧
  tables (resolve (I := blas_build) (gpu, q1) start).2 = tables start ∧
  handles (resolve (I := blas_build) (gpu, q1) start).2 = handles start ∧
  tables (resolve (I := blas_build) (gpu, q1) start).2 !! gpu = None ∧
  ∀ q', resolve (I := blas_build) (gpu, q') (resolve (I := blas_build) (gpu, q1) start).2
        = add_table (I := blas_build) gpu q' (resolve (I := blas_build) (gpu, q1) start).2.
Proof.
  split; [vm_compute; reflexivity|].
  apply (failed_resolve_leaves_caches (I := blas_build) gpu q1 start
           specification_mismatch).
  vm_compute; reflexivity.
Defined.

(** C3 as stated fails: of two consecutive resolve calls for [cpu], the first
    loads and the second is served from [tables], yet together they make two
    open attempts, [libA.so] and [libB.so], not one. *)
Lemma two_resolves_two_open_attempts :
  tables start !! cpu = None ∧
  (resolve (I := blas_build) (cpu, q1) start).1
    = Return (ref_image ("libB.so", "blas_table")) ∧
  (resolve (I := blas_build) (cpu, q1) after_cpu).1 = Return (ref_cache cpu) ∧
  open_attempts (trace start) = [] ∧
  open_attempts (trace (resolve (I := blas_build) (cpu, q1) after_cpu).2)
    = ["libA.so"; "libB.so"] ∧
  length (open_attempts (trace (resolve (I := blas_build) (cpu, q1) after_cpu).2))
    ≠ 1%nat.
Proof.
  split_and!; [done|vm_compute; reflexivity..|vm_compute; congruence].
Qed.

Lemma cached_resolve_served_from_cache_witness :
  tables after_cpu !! cpu = Some (Table 1 "B") ∧
  resolve (I := blas_build) (cpu, q2) after_cpu = (Return (ref_cache cpu), after_cpu) ∧
  (∀ dq, tables (resolve (I := blas_build) dq after_cpu).2 !! cpu = Some (Table 1 "B")) ∧
  tables start !! cpu = None ∧
  resolve (I := blas_build) (cpu, q1) start
    = (Return (ref_image ("libB.so", "blas_table")), after_cpu) ∧
  ∃ evs failed good p,
    trace (resolve (I := blas_build) (cpu, q2) after_cpu).2 = trace start ++ evs ∧
    open_attempts evs = failed ++ [good] ∧
    opened evs = [p] ∧
    candidates (I := blas_build) start cpu !! length failed = Some good ∧
    failed = take (length failed) (candidates (I := blas_build) start cpu).
Proof.
  assert (tables after_cpu !! cpu = Some (Table 1 "B")) as Hhit
    by (vm_compute; reflexivity).
  assert (resolve (I := blas_build) (cpu, q1) start
          = (Return (ref_image ("libB.so", "blas_table")), after_cpu)) as Hfirst
    by (vm_compute; reflexivity).
  pose proof (cached_resolve_served_from_cache (I := blas_build) cpu (Table 1 "B")
                after_cpu Hhit) as (Hserved & Hkept & Htwo).
  split_and!; [exact Hhit|apply Hserved|exact Hkept|reflexivity|exact Hfirst|].
  exact (Htwo start q1 _ q2 eq_refl Hfirst).
Defined.

Lemma candidates_opened_in_order_witness :
  tables start !! cpu = None ∧
  candidates (I := blas_build) start cpu = ["libA.so"; "libB.so"] ∧
  GET_LIB_HANDLE "libA.so" (os start) = (None, (stub_open "libA.so" world0).2) ∧
  GET_LIB_HANDLE "libB.so" (stub_open "libA.so" world0).2
    = (Some "libB.so", (stub_open "libB.so" (stub_open "libA.so" world0).2).2) ∧
  ∃ more,
    trace after_cpu
      = trace start ++ [ev_open "libA.so" None; ev_open "libB.so" (Some "libB.so")] ++ more ∧
    open_attempts more = [] ∧
    ∀ r0, (resolve (I := blas_build) (cpu, q1) start).1 = Return r0 →
      ∃ t w3,
        GET_FUNC "libB.so" (table_names blas)
          (stub_open "libB.so" (stub_open "libA.so" world0).2).2 = (Some t, w3) ∧
        r0 = ref_image t ∧
        handles after_cpu !! cpu = Some (Some "libB.so") ∧
        tables after_cpu !! cpu = Some (load (os after_cpu) t).
Proof.
  split_and!; [reflexivity|vm_compute; reflexivity..|].
  assert (resolve (I := blas_build) (cpu, q1) start
          = ((resolve (I := blas_build) (cpu, q1) start).1, after_cpu)) as Hrun
    by (vm_compute; reflexivity).
  apply (proj2 (candidates_opened_in_order (I := blas_build) cpu q1 start _ _
                  eq_refl Hrun) "libA.so" "libB.so"
           (stub_open "libA.so" world0).2 "libB.so"
           (stub_open "libB.so" (stub_open "libA.so" world0).2).2);
    vm_compute; reflexivity.
Defined.

Lemma empty_candidates_null_diagnostic_witness :
  tables start !! generic = None ∧
  candidates (I := StubMore.blas_generic_build) start generic = [] ∧
  (ERROR_MSG (os start)).1 = None ∧
  ∃ s',
    resolve (I := StubMore.blas_generic_build) (generic, q1) start
      = (Throw backend_not_found, s') ∧
    trace s' = trace start ++ [ev_cerr None] ∧
    open_attempts (trace s') = open_attempts (trace start) ∧
    cerr_output (trace s') = cerr_output (trace start) ∧
    cerr_bad (trace s') = true ∧
    ∀ later, cerr_output (trace s' ++ later) = cerr_output (trace s').
Proof.
  split_and!; [reflexivity|vm_compute; reflexivity|reflexivity|].
  apply (empty_candidates_null_diagnostic (I := StubMore.blas_generic_build)
           generic q1 start); [reflexivity|vm_compute; reflexivity|reflexivity..].
Defined.

Lemma version_mismatch_releases_and_caches_nothing_witness :
  tables start !! gpu = None ∧
  search (candidates (I := blas_build) start gpu) (os start) (Some "libG.so")
    (stub_open "libG.so" world0).2 [ev_open "libG.so" (Some "libG.so")] ∧
  GET_FUNC "libG.so" (table_names blas) (stub_open "libG.so" world0).2
    = (Some ("libG.so", "blas_table"), (stub_open "libG.so" world0).2) ∧
  version (load (stub_open "libG.so" world0).2 ("libG.so", "blas_table")) ≠ SPEC_VERSION ∧
  ∃ s',
    resolve (I := blas_build) (gpu, q1) start = (Throw specification_mismatch, s') ∧
    trace s' =
      trace start ++ [ev_open "libG.so" (Some "libG.so")] ++
        [ev_func "libG.so" (table_names blas) (Some ("libG.so", "blas_table"));
         ev_free "libG.so"] ∧
    os s' = FREE_LIB_HANDLE "libG.so" (stub_open "libG.so" world0).2 ∧
    opened [ev_open "libG.so" (Some "libG.so")] = ["libG.so"] ∧
    tables s' = tables start ∧ handles s' = handles start.
Proof.
  assert (search (candidates (I := blas_build) start gpu) (os start) (Some "libG.so")
            (stub_open "libG.so" world0).2 [ev_open "libG.so" (Some "libG.so")]) as Hs.
  { exact (search_hit (P := platform) "libG.so" [] world0 "libG.so" _ eq_refl). }
  assert (version (load (stub_open "libG.so" world0).2 ("libG.so", "blas_table"))
          ≠ SPEC_VERSION) as Hver.
  { vm_compute. congruence. }
  split_and!; [reflexivity|exact Hs|reflexivity|exact Hver|].
  exact (version_mismatch_releases_and_caches_nothing (I := blas_build) gpu q1 start
           "libG.so" _ _ ("libG.so", "blas_table") _ eq_refl Hs eq_refl Hver).
Defined.

Lemma missing_symbol_releases_handle_witness :
  tables start !! cpu = None ∧
  search (candidates (I := dft_build) start cpu) (os start) (Some "libN.so")
    (stub_open "libN.so" world0).2 [ev_open "libN.so" (Some "libN.so")] ∧
  GET_FUNC "libN.so" (table_names dft) (stub_open "libN.so" world0).2
    = (None, (stub_symbol "libN.so" "dft_table" (stub_open "libN.so" world0).2).2) ∧
  ∃ s',
    resolve (I := dft_build) (cpu, q1) start = (Throw function_not_found, s') ∧
    freed (drop (length (trace start)) (trace s')) = ["libN.so"] ∧
    opened (drop (length (trace start)) (trace s')) = ["libN.so"] ∧
    tables s' = tables start ∧ handles s' = handles start ∧
    cerr_output (trace s') = ["libN.so: undefined symbol dft_table"].
Proof.
  assert (search (candidates (I := dft_build) start cpu) (os start) (Some "libN.so")
            (stub_open "libN.so" world0).2 [ev_open "libN.so" (Some "libN.so")]) as Hs.
  { exact (search_hit (P := platform) "libN.so" [] world0 "libN.so" _ eq_refl). }
  split_and!; [reflexivity|exact Hs|reflexivity|].
  destruct (missing_symbol_releases_handle (I := dft_build) cpu q1 start
              "libN.so" _ _ _ eq_refl Hs eq_refl)
    as (s' & Hrun & Htr & _ & Hop & Hfr & Ht & Hh & Hout).
  exists s'. rewrite (Hout "libN.so: undefined symbol dft_table" eq_refl eq_refl).
  rewrite Htr, drop_app_length, opened_app, Hop.
  split_and!; [exact Hrun|exact Hfr|reflexivity|exact Ht|exact Hh|reflexivity].
Defined.

Lemma handle_held_before_table_cached_witness :
  reachable (I := blas_build) start ∧
  backed start ∧ backed after_cpu ∧
  (∀ key, is_Some (tables start !! key) → handles after_cpu !! key = handles start !! key) ∧
  ∃ evs, trace after_cpu = trace start ++ evs ∧
    (cache_writes evs = [] ∨
     ∃ p t, cache_writes evs = [ev_store_handle cpu (Some p); ev_store_table cpu] ∧
            opened evs = [p] ∧
            ev_func p (table_names blas) (Some t) ∈ evs ∧
            handles after_cpu !! cpu = Some (Some p) ∧
            tables after_cpu !! cpu = Some (load (os after_cpu) t)).
Proof.
  split; [apply reachable_initial|].
  apply (handle_held_before_table_cached (I := blas_build) (cpu, q1) start
           (resolve (I := blas_build) (cpu, q1) start).1 after_cpu).
  - apply reachable_initial.
  - vm_compute; reflexivity.
Defined.

Lemma queue_only_in_diagnostic_witness :
  (resolve (I := blas_build) (generic, q1) start).1 = Throw (unsupported_device "Stub CPU") ∧
  (resolve (I := blas_build) (generic, q2) start).1 = Throw (unsupported_device "Stub GPU") ∧
  (resolve (I := blas_build) (generic, q1) start).2
    = (resolve (I := blas_build) (generic, q2) start).2 ∧
  outcome_kind (resolve (I := blas_build) (generic, q1) start).1
    = outcome_kind (resolve (I := blas_build) (generic, q2) start).1.
Proof.
  split_and!; [vm_compute; reflexivity..| |].
  - apply (queue_only_in_diagnostic (I := blas_build) generic q1 q2 start).
  - apply (queue_only_in_diagnostic (I := blas_build) generic q1 q2 start).
Defined.

Lemma unlisted_device_like_empty_list_witness :
  tables start !! generic = None ∧
  default ∅ (libraries start !! dft) !! generic = None ∧
  candidates (I := dft_build)
    (set_libraries (<[dft := <[generic := []]> (default ∅ (libraries start !! dft))]>
                      (libraries start)) start) generic = [] ∧
  resolve (I := dft_build) (generic, q1) start
    = resolve (I := dft_build) (generic, q1)
        (set_libraries (<[dft := <[generic := []]> (default ∅ (libraries start !! dft))]>
                          (libraries start)) start) ∧
  open_attempts (trace (resolve (I := dft_build) (generic, q1) start).2)
    = open_attempts (trace start) ∧
  resolve (I := dft_build) (generic, q1) start
    = (Throw (unsupported_device "Stub CPU"),
       set_libraries (<[dft := <[generic := []]> (default ∅ (libraries start !! dft))]>
                        (libraries start)) start) ∧
  tables StubMore.unlisted_start !! cpu = None ∧
  default ∅ (libraries StubMore.unlisted_start !! dft) !! cpu = None ∧
  resolve (I := dft_build) (cpu, q1) StubMore.unlisted_start
    = resolve (I := dft_build) (cpu, q1)
        (set_libraries (<[dft := <[cpu := []]> ∅]> ∅) StubMore.unlisted_start) ∧
  open_attempts (trace (resolve (I := dft_build) (cpu, q1) StubMore.unlisted_start).2)
    = open_attempts (trace StubMore.unlisted_start) ∧
  resolve (I := dft_build) (cpu, q1) StubMore.unlisted_start
    = (Throw backend_not_found,
       log (ev_cerr None)
         (set_libraries (<[dft := <[cpu := []]> ∅]> ∅) StubMore.unlisted_start)).
Proof.
  pose proof (unlisted_device_like_empty_list (I := dft_build) generic q1 start
                eq_refl ltac:(vm_compute; reflexivity)) as (Hc & Heq & Hopen & Hrun).
  pose proof (unlisted_device_like_empty_list (I := dft_build) cpu q1
                StubMore.unlisted_start eq_refl eq_refl)
    as (_ & Heq' & Hopen' & Hrun').
  split_and!; [reflexivity|vm_compute; reflexivity|exact Hc|exact Heq|exact Hopen
              |exact Hrun|reflexivity|reflexivity|exact Heq'|exact Hopen'|exact Hrun'].
Defined.

End StubRuns.

(** * Further properties of [operator[]] and [add_table] *)

Section more_properties.
Context {E : Externals}.
Context {function_table_t : Type} {FT : FunctionTable function_table_t}.
Context {P : Platform function_table_t}.
Context {I : Instantiation}.

Implicit Types (s : state) (key : device) (q : queue) (w : world)
  (h : dlhandle) (p : lib) (t : table_ptr) (evs : list event).

(** ** Projections of the trace *)

Lemma freed_app evs1 evs2 : freed (evs1 ++ evs2) = freed evs1 ++ freed evs2.
Proof. apply omap_app. Qed.

Lemma diagnostics_app evs1 evs2 :
  diagnostics (evs1 ++ evs2) = diagnostics evs1 ++ diagnostics evs2.
Proof. apply omap_app. Qed.

Lemma symbol_lookups_app evs1 evs2 :
  symbol_lookups (evs1 ++ evs2) = symbol_lookups evs1 ++ symbol_lookups evs2.
Proof. apply omap_app. Qed.

(** The search only opens. *)
Lemma search_only_opens libs w h w' evs :
  search libs w h w' evs →
  freed evs = [] ∧ diagnostics evs = [] ∧ symbol_lookups evs = [] ∧
  opened evs = match h with Some p => [p] | None => [] end.
Proof. induction 1; cbn; [done..|]. by destruct h. Qed.

(** ** One call, by cases *)

(** A call from a state in which [handles] has no token without a table is
    a cache hit that changes nothing, a failure that leaves both maps and
    has released what it opened, or a first load that adds one entry to each
    map and releases nothing. *)
Lemma resolve_call key q s r s' :
  aligned s →
  resolve (key, q) s = (r, s') →
  ∃ evs, trace s' = trace s ++ evs ∧
    ((∃ v, tables s !! key = Some v ∧ r = Return (ref_cache key) ∧ s' = s ∧ evs = []) ∨
     (∃ e, r = Throw e ∧ tables s !! key = None ∧
           tables s' = tables s ∧ handles s' = handles s ∧
           freed evs = opened evs) ∨
     (∃ p t, r = Return (ref_image t) ∧
             tables s !! key = None ∧ handles s !! key = None ∧
             tables s' = <[key := load (os s') t]> (tables s) ∧
             handles s' = <[key := Some p]> (handles s) ∧
             version (load (os s') t) = SPEC_VERSION ∧
             opened evs = [p] ∧ freed evs = [])).
Proof.
  intros Hal Hrun. destruct (tables s !! key) as [v|] eqn:Hk.
  { rewrite (resolve_hit _ _ _ _ Hk) in Hrun. simplify_eq.
    exists []. rewrite app_nil_r. split; [done|]. left. by exists v. }
  rewrite resolve_miss in Hrun by done. apply add_table_sound in Hrun.
  pose proof (Hal _ Hk) as Hnone.
  assert (displaced s key = None) as Hd
    by (unfold displaced, dlhandle in *; by rewrite Hnone).
  inversion Hrun as [w evs Hs|w evs msg w' Hs|p w evs w1 msg w2 Hs
                    |p w evs t w1 Hs|p w evs t w1 Hs Hfn Hver]; subst; cbn;
    destruct (search_only_opens _ _ _ _ _ Hs) as (Hfr & _ & _ & Hop);
    (eexists; split; [reflexivity|]).
  - right; left. eexists. rewrite Hfr, Hop. by split_and!.
  - right; left. eexists. rewrite freed_app, opened_app, Hfr, Hop. by split_and!.
  - right; left. eexists. rewrite freed_app, opened_app, Hfr, Hop. by split_and!.
  - right; left. eexists. rewrite freed_app, opened_app, Hfr, Hop. by split_and!.
  - right; right. exists p, t. rewrite Hd. cbn.
    rewrite freed_app, opened_app, Hfr, Hop. by split_and!.
Qed.

Lemma resolve_preserves_aligned dq s : aligned s → aligned (resolve dq s).2.
Proof.
  intros Hal. destruct dq as [key q].
  destruct (resolve (key, q) s) as [r s'] eqn:Hrun. cbn.
  destruct (resolve_call _ _ _ _ _ Hal Hrun)
    as (evs & _ & [(v & _ & _ & -> & _)
                  |[(e & _ & _ & Ht & Hh & _)|(p & t & _ & _ & _ & Ht & Hh & _)]]);
    [done| |]; intros k; rewrite Ht, Hh; [apply Hal|].
  destruct (decide (k = key)) as [->|Hne].
  - by rewrite lookup_insert_eq.
  - rewrite !lookup_insert_ne by done. apply Hal.
Qed.

Lemma reachable_aligned s : reachable s → aligned s.
Proof.
  induction 1 as [reg w|dq s _ IH|w s _ IH].
  - intros key _. apply lookup_empty.
  - by apply resolve_preserves_aligned.
  - exact IH.
Qed.

(** ** What a call leaves alone *)

(** X1: a resolve call for one device, whatever its outcome, leaves the
    entries of every other device in [tables] and in [handles] as they
    were. *)
Theorem resolve_leaves_other_devices dq k s :
  k ≠ dq.1 →
  tables (resolve dq s).2 !! k = tables s !! k ∧
  handles (resolve dq s).2 !! k = handles s !! k.
Proof.
  intros Hne. destruct dq as [key q]. cbn in Hne.
  destruct (tables s !! key) as [v|] eqn:Hk.
  { by rewrite (resolve_hit _ _ _ _ Hk). }
  rewrite resolve_miss by done.
  destruct (add_table key q s) as [r s'] eqn:Hrun. cbn.
  destruct (add_table_writes _ _ _ _ _ Hrun)
    as (evs & _ & [(_ & -> & -> & _)|(p & t & _ & _ & _ & -> & -> & _)]);
    [done|].
  by rewrite !lookup_insert_ne.
Qed.

(** ** The two maps go together *)

(** X2: in every state a program can reach, [tables] and [handles] have the
    same set of devices as keys, and every token [handles] owns is
    non-null. *)
Theorem reachable_caches_same_keys s :
  reachable s →
  dom (tables s) = dom (handles s) ∧
  ∀ key h, handles s !! key = Some h → ∃ p, h = Some p.
Proof.
  intros Hreach.
  pose proof (reachable_backed _ Hreach) as Hb.
  pose proof (reachable_aligned _ Hreach) as Hal.
  split.
  - apply set_eq. intros k. rewrite !elem_of_dom. split.
    + intros Hk. destruct (Hb k Hk) as [p Hp]. unfold dlhandle in *. by rewrite Hp.
    + intros [h Hh]. destruct (tables s !! k) eqn:Hk; [done|].
      pose proof (Hal k Hk) as Hn. unfold dlhandle in *. congruence.
  - intros k h Hh. destruct (tables s !! k) as [v|] eqn:Hk.
    + destruct (Hb k (mk_is_Some _ _ Hk)) as [p Hp]. exists p.
      unfold dlhandle in *. congruence.
    + pose proof (Hal k Hk) as Hn. unfold dlhandle in *. congruence.
Qed.

(** X3: a resolve call made in a reachable state opens at most one library;
    when it fails it has released exactly what it opened, and when it
    succeeds it has released nothing. *)
Theorem call_releases_what_it_opened dq s r s' :
  reachable s →
  resolve dq s = (r, s') →
  ∃ evs, trace s' = trace s ++ evs ∧
    (length (opened evs) ≤ 1)%nat ∧
    match r with
    | Return _ => freed evs = []
    | Throw _ => freed evs = opened evs
    end.
Proof.
  intros Hreach Hrun. destruct dq as [key q].
  destruct (resolve_call _ _ _ _ _ (reachable_aligned _ Hreach) Hrun)
    as (evs & Htr & [(v & _ & -> & _ & Hnil)
                    |[(e & -> & Hk & _ & _ & Hbal)
                     |(p & t & -> & _ & _ & _ & _ & _ & Hop & Hfr)]]);
    exists evs; (split; [done|]).
  - rewrite Hnil. cbn. split; [lia|done].
  - split; [|done]. rewrite resolve_miss in Hrun by done.
    apply add_table_sound in Hrun.
    inversion Hrun as [w evs' Hs|w evs' msg w' Hs|p w evs' w1 msg w2 Hs
                      |p w evs' t w1 Hs|]; subst;
      apply app_inv_head in Htr; subst;
      destruct (search_only_opens _ _ _ _ _ Hs) as (_ & _ & _ & Hop);
      rewrite ?opened_app, Hop; cbn; lia.
  - rewrite Hop. split; [cbn; lia|done].
Qed.

(** X4: in every state a program can reach, the libraries opened so far
    are, as a multiset, the ones released so far together with the ones
    [handles] owns: no token is lost and none is released twice. *)
Theorem opened_is_freed_or_held s :
  reachable s → opened (trace s) ≡ₚ freed (trace s) ++ held s.
Proof.
  induction 1 as [reg w|[key q] s Hreach IH|w s _ IH].
  - unfold held. cbn. by rewrite map_to_list_empty.
  - destruct (resolve (key, q) s) as [r s'] eqn:Hrun. cbn.
    destruct (resolve_call _ _ _ _ _ (reachable_aligned _ Hreach) Hrun)
      as (evs & Htr & [(v & _ & _ & -> & _)
                      |[(e & _ & _ & _ & Hh & Hbal)
                       |(p & t & _ & _ & Hnone & _ & Hh & _ & Hop & Hfr)]]).
    + exact IH.
    + rewrite Htr, opened_app, freed_app, IH, Hbal. unfold held. rewrite Hh.
      by rewrite <- !(assoc_L (++)), (comm (++) (omap _ _) (opened evs)).
    + rewrite Htr, opened_app, freed_app, IH, Hop, Hfr, app_nil_r.
      unfold held. rewrite Hh.
      rewrite (map_to_list_insert (handles s) key (Some p)) by done. cbn.
      rewrite <- (assoc_L (++)). apply Permutation_app_head.
      symmetry. apply Permutation_cons_append.
  - exact IH.
Qed.

(** X10: in every state a program can reach, every table in [tables] has
    the version [SPEC_VERSION]. *)
Theorem cached_tables_have_spec_version s key v :
  reachable s → tables s !! key = Some v → version v = SPEC_VERSION.
Proof.
  intros Hreach. revert key v.
  induction Hreach as [reg w|[key' q] s Hreach IH|w s _ IH]; intros key v.
  - cbn. by rewrite lookup_empty.
  - destruct (resolve (key', q) s) as [r s'] eqn:Hrun. cbn.
    destruct (resolve_call _ _ _ _ _ (reachable_aligned _ Hreach) Hrun)
      as (evs & Htr & [(v' & _ & _ & -> & _)
                      |[(e & _ & _ & -> & _)
                       |(p & t & _ & _ & _ & -> & _ & Hver & _)]]);
      [apply IH..|].
    destruct (decide (key = key')) as [->|Hne].
    + rewrite lookup_insert_eq. by intros [= <-].
    + rewrite lookup_insert_ne by done. apply IH.
  - exact (IH key v).
Qed.

(** ** Reading the outcome *)

(** X5: the exception of a failed resolve tells what went wrong.  The
    device was not in [tables]; [unsupported_device] and [backend_not_found]
    mean that no candidate opened (the first only for [generic_device] in a
    build without generic backend, and then with [q.get_device()] as
    payload), [function_not_found] that a candidate opened and the lookup of
    the symbol gave null, [specification_mismatch] that the symbol resolved
    and the version read there is not [SPEC_VERSION]. *)
Theorem exception_tells_cause key q s e s' :
  resolve (key, q) s = (Throw e, s') →
  tables s !! key = None ∧
  match e with
  | unsupported_device dev =>
      dev = get_device q ∧ key = generic_device ∧
      is_generic_device_supported = false ∧
      ∃ w evs, search (candidates s key) (os s) None w evs
  | backend_not_found =>
      (is_generic_device_supported = true ∨ key ≠ generic_device) ∧
      ∃ w evs, search (candidates s key) (os s) None w evs
  | function_not_found =>
      ∃ p w evs w1,
        search (candidates s key) (os s) (Some p) w evs ∧
        GET_FUNC p (table_names domain_id) w = (None, w1)
  | specification_mismatch =>
      ∃ p w evs t w1,
        search (candidates s key) (os s) (Some p) w evs ∧
        GET_FUNC p (table_names domain_id) w = (Some t, w1) ∧
        version (load w1 t) ≠ SPEC_VERSION
  end.
Proof.
  intros Hrun. destruct (tables s !! key) as [v|] eqn:Hk.
  { by rewrite (resolve_hit _ _ _ _ Hk) in Hrun. }
  split; [done|]. rewrite resolve_miss in Hrun by done.
  apply add_table_sound in Hrun.
  inversion Hrun; subst; eauto 10.
Qed.

(** The insertions into [std::cerr] that a call executes, by outcome. *)
Lemma insertions_by_outcome dq s r s' :
  resolve dq s = (r, s') →
  ∃ evs, trace s' = trace s ++ evs ∧
    length (diagnostics evs) =
      match r with
      | Throw backend_not_found | Throw function_not_found => 1%nat
      | _ => 0%nat
      end.
Proof.
  intros Hrun. destruct dq as [key q].
  destruct (tables s !! key) as [v|] eqn:Hk.
  { rewrite (resolve_hit _ _ _ _ Hk) in Hrun. simplify_eq.
    exists []. by rewrite app_nil_r. }
  rewrite resolve_miss in Hrun by done. apply add_table_sound in Hrun.
  inversion Hrun as [w evs Hs|w evs msg w' Hs|p w evs w1 msg w2 Hs
                    |p w evs t w1 Hs|p w evs t w1 Hs]; subst; cbn;
    destruct (search_only_opens _ _ _ _ _ Hs) as (_ & Hdg & _ & _);
    (eexists; split; [reflexivity|]);
    rewrite ?diagnostics_app, Hdg; cbn; try done.
  fold (diagnostics (release_events (displaced s key) ++ [ev_store_table key])).
  rewrite diagnostics_app. by destruct (displaced s key).
Qed.

Lemma cerr_output_no_insertion evs : diagnostics evs = [] → cerr_output evs = [].
Proof.
  induction evs as [|e evs IH]; [done|].
  destruct e as [| | |[msg|]| |]; cbn; try done; exact IH.
Qed.

(** With at most one insertion, what is written to a good stream is the
    operand unless it is null. *)
Lemma cerr_output_single evs :
  (length (diagnostics evs) ≤ 1)%nat → cerr_output evs = omap id (diagnostics evs).
Proof.
  induction evs as [|e evs IH]; [done|].
  destruct e as [| | |[msg|]| |]; try exact IH.
  - change (diagnostics (ev_cerr (Some msg) :: evs)) with (Some msg :: diagnostics evs).
    change (cerr_output (ev_cerr (Some msg) :: evs)) with (msg :: cerr_output evs).
    destruct (diagnostics evs) eqn:Hd; cbn; [|lia].
    intros _. by rewrite (cerr_output_no_insertion _ Hd).
  - change (diagnostics (ev_cerr None :: evs)) with (@None error_text :: diagnostics evs).
    destruct (diagnostics evs) eqn:Hd; cbn; [done|lia].
Qed.

(** X6: a resolve call executes [std::cerr << ERROR_MSG << '\n'] exactly
    once when it throws [backend_not_found] or [function_not_found], and not
    at all otherwise: success, a cache hit, [unsupported_device] and
    [specification_mismatch] insert nothing.  What the call adds to the
    output of the stream is the operand of that insertion, provided the
    operand is not null and no earlier insertion had a null operand; in
    the other cases the call writes nothing. *)
Theorem diagnostics_by_outcome dq s r s' :
  resolve dq s = (r, s') →
  ∃ evs, trace s' = trace s ++ evs ∧
    length (diagnostics evs) =
      match r with
      | Throw backend_not_found | Throw function_not_found => 1%nat
      | _ => 0%nat
      end ∧
    cerr_output (trace s') =
      cerr_output (trace s) ++
        (if cerr_bad (trace s) then [] else omap id (diagnostics evs)).
Proof.
  intros Hrun. destruct (insertions_by_outcome _ _ _ _ Hrun) as (evs & Htr & Hlen).
  exists evs. split_and!; [done..|].
  rewrite Htr, cerr_output_app. f_equal.
  destruct (cerr_bad (trace s)); [done|].
  apply cerr_output_single. rewrite Hlen.
  destruct r as [ref|[]]; lia.
Qed.

Lemma search_attempts_prefix libs w h w' evs :
  search libs w h w' evs → open_attempts evs `prefix_of` libs.
Proof.
  induction 1; cbn.
  - done.
  - apply prefix_cons, prefix_nil.
  - by apply prefix_cons.
Qed.

(** X11: a resolve call passes to [GET_LIB_HANDLE] only names from the
    front of the candidate list of its device, in list order, and it calls
    [GET_FUNC] at most once: with the symbol name of the domain, in the one
    library it opened. *)
Theorem call_opens_prefix_and_looks_up_once dq s r s' :
  resolve dq s = (r, s') →
  ∃ evs, trace s' = trace s ++ evs ∧
    open_attempts evs `prefix_of` candidates s dq.1 ∧
    (symbol_lookups evs = [] ∨
     ∃ p, opened evs = [p] ∧ symbol_lookups evs = [(p, table_names domain_id)]).
Proof.
  intros Hrun. destruct dq as [key q]. cbn.
  destruct (tables s !! key) as [v|] eqn:Hk.
  { rewrite (resolve_hit _ _ _ _ Hk) in Hrun. simplify_eq.
    exists []. rewrite app_nil_r. split_and!; [done|apply prefix_nil|by left]. }
  rewrite resolve_miss in Hrun by done. apply add_table_sound in Hrun.
  inversion Hrun as [w evs Hs|w evs msg w' Hs|p w evs w1 msg w2 Hs
                    |p w evs t w1 Hs|p w evs t w1 Hs]; subst; cbn;
    destruct (search_only_opens _ _ _ _ _ Hs) as (_ & _ & Hsl & Hop);
    pose proof (search_attempts_prefix _ _ _ _ _ Hs) as Hpre;
    (eexists; split; [reflexivity|]);
    rewrite ?open_attempts_app, ?symbol_lookups_app, ?opened_app, ?Hsl, ?Hop; cbn;
    rewrite ?app_nil_r.
  - split; [done|by left].
  - split; [done|by left].
  - split; [done|]. right. by exists p.
  - split; [done|]. right. by exists p.
  - fold (open_attempts (release_events (displaced s key) ++ [ev_store_table key])).
    fold (symbol_lookups (release_events (displaced s key) ++ [ev_store_table key])).
    fold (opened (release_events (displaced s key) ++ [ev_store_table key])).
    rewrite open_attempts_app, symbol_lookups_app, opened_app.
    destruct (displaced s key); cbn; rewrite ?app_nil_r;
      (split; [done|]); right; by exists p.
Qed.

(** ** The registry *)

Lemma registry_lookup_after s key dom k :
  registry_lookup (registry_after s key) dom k = registry_lookup (libraries s) dom k.
Proof.
  unfold registry_lookup, registry_after, candidates.
  destruct (decide (dom = domain_id)) as [->|Hd].
  - rewrite lookup_insert_eq. cbn.
    destruct (decide (k = key)) as [->|Hk].
    + by rewrite lookup_insert_eq.
    + by rewrite lookup_insert_ne.
  - by rewrite lookup_insert_ne.
Qed.

Lemma add_table_libraries key q s r s' :
  add_table key q s = (r, s') → libraries s' = registry_after s key.
Proof. intros Hrun. apply add_table_sound in Hrun. by inversion Hrun. Qed.

(** X7: a resolve call never changes what the registry yields for any
    domain and device; but a call for a device that is not in [tables]
    leaves an explicit entry for the device under the domain, also when the
    registry did not list it and also when the call fails. *)
Theorem resolve_keeps_registry_lookups dq s :
  (∀ dom k, registry_lookup (libraries (resolve dq s).2) dom k
            = registry_lookup (libraries s) dom k) ∧
  (tables s !! dq.1 = None →
   ∃ m, libraries (resolve dq s).2 !! domain_id = Some m ∧
        m !! dq.1 = Some (candidates s dq.1)).
Proof.
  destruct dq as [key q]. cbn.
  destruct (tables s !! key) as [v|] eqn:Hk.
  { rewrite (resolve_hit _ _ _ _ Hk). done. }
  rewrite resolve_miss by done.
  destruct (add_table key q s) as [r s'] eqn:Hrun. cbn.
  rewrite (add_table_libraries _ _ _ _ _ Hrun). split.
  - intros dom k. apply registry_lookup_after.
  - intros _. unfold registry_after. eexists.
    rewrite lookup_insert_eq. split; [done|]. by rewrite lookup_insert_eq.
Qed.

(** ** Programs *)

Lemma step_keeps a s :
  tables s ⊆ tables (step a s) ∧
  (∀ key, is_Some (tables s !! key) → handles (step a s) !! key = handles s !! key) ∧
  trace s `prefix_of` trace (step a s).
Proof.
  destruct a as [[key q]|w]; cbn; [|done].
  destruct (tables s !! key) as [v|] eqn:Hk.
  { by rewrite (resolve_hit _ _ _ _ Hk). }
  rewrite resolve_miss by done.
  destruct (add_table key q s) as [r s'] eqn:Hrun. cbn.
  destruct (add_table_writes _ _ _ _ _ Hrun)
    as (evs & Htr & [(_ & -> & -> & _)|(p & t & _ & _ & _ & -> & -> & _)]);
    (split_and!; [|..|by exists evs]); try done.
  - by apply insert_subseteq.
  - intros k [v Hv]. rewrite lookup_insert_ne; [done|congruence].
Qed.

(** X8: over any program (resolve calls for any devices and queues, with
    any changes of the loader's state in between, failed calls included) an
    entry of [tables] stays as it is, the token in [handles] of a device in
    [tables] stays as it is, and the trace only grows at its end. *)
Theorem run_keeps_what_is_cached acts s :
  tables s ⊆ tables (run acts s) ∧
  (∀ key, is_Some (tables s !! key) → handles (run acts s) !! key = handles s !! key) ∧
  trace s `prefix_of` trace (run acts s).
Proof.
  revert s. induction acts as [|a acts IH]; intros s; cbn.
  { done. }
  destruct (step_keeps a s) as (Ht & Hh & Htr).
  destruct (IH (step a s)) as (Ht' & Hh' & Htr').
  split_and!.
  - by etrans.
  - intros key Hk. rewrite Hh'; [by apply Hh|].
    destruct Hk as [v Hv]. exists v. by eapply lookup_weaken.
  - by etrans.
Qed.

(** X9: a failure is not remembered.  After a resolve for a device has
    failed, a later resolve for it in a state of the loader in which the
    first candidate of the device that opens (the candidates are those of
    the first call) exports the symbol and has the expected version loads
    that table, whatever the earlier exception was. *)
Theorem retry_after_failure_loads key q q' s e s1 w' p w evs t w1 :
  resolve (key, q) s = (Throw e, s1) →
  search (candidates s key) w' (Some p) w evs →
  GET_FUNC p (table_names domain_id) w = (Some t, w1) →
  version (load w1 t) = SPEC_VERSION →
  ∃ s2,
    resolve (key, q') (set_os w' s1) = (Return (ref_image t), s2) ∧
    handles s2 !! key = Some (Some p) ∧
    tables s2 !! key = Some (load (os s2) t).
Proof.
  intros Hfail Hs Hfn Hver.
  destruct (tables s !! key) as [v|] eqn:Hk.
  { by rewrite (resolve_hit _ _ _ _ Hk) in Hfail. }
  rewrite resolve_miss in Hfail by done.
  pose proof (add_table_libraries _ _ _ _ _ Hfail) as Hlib.
  destruct (add_table_writes _ _ _ _ _ Hfail)
    as (evs0 & _ & [(_ & Ht & _ & _)|(? & ? & _ & _ & _ & _ & _ & [=])]).
  assert (candidates (set_os w' s1) key = candidates s key) as Hc.
  { unfold candidates at 1. cbn. rewrite Hlib.
    apply (registry_lookup_after s key domain_id key). }
  eexists. rewrite resolve_miss by (cbn; by rewrite Ht).
  split.
  - apply add_table_complete. eapply path_loaded; [|done..].
    rewrite Hc. exact Hs.
  - cbn. by rewrite !lookup_insert_eq.
Qed.

End more_properties.

Section more_properties_runs.
Context {E : Externals}.
Context {function_table_t : Type} {FT : FunctionTable function_table_t}.
Context {P : Platform function_table_t}.
Context {I : Instantiation}.

Lemma run_reachable acts (s : state) : reachable s → reachable (run acts s).
Proof.
  revert s. induction acts as [|[dq|w] acts IH]; intros s Hs; cbn.
  - done.
  - apply IH. by apply reachable_resolve.
  - apply IH. by apply reachable_world.
Qed.

End more_properties_runs.

(** * Properties of [GetLastErrorStdStr] *)

Section GetLastErrorStdStr_properties.
Context {W : Win32}.

Lemma string_of_range_length w b n :
  String.length (string_of_range w b n) = N.to_nat n.
Proof.
  unfold string_of_range.
  generalize (map (peek w b) (seq 0 (N.to_nat n))) (length_map (peek w b) (seq 0 (N.to_nat n))).
  intros l. rewrite length_seq. intros <-.
  induction l as [|c l IH]; cbn; [done|]. by rewrite IH.
Qed.

(** X12: [GetLastErrorStdStr] returns the empty string exactly when no
    error is pending or [FormatMessage] stored no character; otherwise the
    text has the [bufLen] characters of the buffer.  [LocalFree] is called
    once, on the buffer of [FormatMessage], exactly when characters were
    stored, and with no error pending no call is made at all. *)
Theorem last_error_text w :
  let error := GetLastError w in
  let bufLen := (FormatMessage error w).1.1 in
  let lpMsgBuf := (FormatMessage error w).1.2 in
  ((GetLastErrorStdStr w).1.1 = EmptyString ↔ error = 0%N ∨ bufLen = 0%N) ∧
  (error ≠ 0%N → String.length (GetLastErrorStdStr w).1.1 = N.to_nat bufLen) ∧
  local_frees (GetLastErrorStdStr w).2
    = (if decide (error ≠ 0%N ∧ bufLen ≠ 0%N) then [lpMsgBuf] else []) ∧
  (error = 0%N → (GetLastErrorStdStr w).1.2 = w ∧ (GetLastErrorStdStr w).2 = []).
Proof.
  cbn zeta. unfold GetLastErrorStdStr.
  destruct (N.eqb_spec (GetLastError w) 0) as [He|He]; cbn.
  { rewrite He. rewrite decide_False by (intros [? _]; done).
    split_and!; try done. split; [by left|done]. }
  destruct (FormatMessage (GetLastError w) w) as [[bufLen lpMsgBuf] w1]; cbn.
  destruct (N.eqb_spec bufLen 0) as [Hb|Hb]; cbn.
  { rewrite decide_False by (intros [_ ?]; done).
    split_and!; try done; [split; [by right|done]|by rewrite Hb]. }
  rewrite decide_True by done.
  pose proof (string_of_range_length w1 lpMsgBuf bufLen) as Hlen.
  split_and!; try done. split; [|intros [?|?]; done].
  intros Hempty. rewrite Hempty in Hlen. cbn in Hlen. lia.
Qed.

(** With no error pending the [_WIN64] build inserts an empty string, where
    the Linux build inserts the null pointer of [dlerror()]. *)
Lemma ERROR_MSG_WIN64_no_error w :
  GetLastError w = 0%N → ERROR_MSG_WIN64 w = (Some EmptyString, w).
Proof.
  intros He. unfold ERROR_MSG_WIN64, GetLastErrorStdStr. by rewrite He.
Qed.

End GetLastErrorStdStr_properties.

(** * Further runs on the stub platform *)

Module MoreRuns.
Import Stub StubMore.

Lemma program_reachable : reachable (I := blas_build) (run (I := blas_build) program bare_start).
Proof. apply (run_reachable (I := blas_build)), reachable_initial. Qed.

Lemma resolve_leaves_other_devices_witness :
  gpu ≠ cpu ∧
  tables (resolve (I := blas_build) (cpu, q1) start).2 !! gpu = tables start !! gpu ∧
  handles (resolve (I := blas_build) (cpu, q1) start).2 !! gpu = handles start !! gpu.
Proof.
  assert (gpu ≠ cpu) as Hne by discriminate.
  split; [exact Hne|].
  exact (resolve_leaves_other_devices (I := blas_build) (cpu, q1) gpu start Hne).
Defined.

Lemma reachable_caches_same_keys_witness :
  reachable (I := blas_build) (run (I := blas_build) program bare_start) ∧
  dom (tables (run (I := blas_build) program bare_start))
    = dom (handles (run (I := blas_build) program bare_start)) ∧
  ∀ key h, handles (run (I := blas_build) program bare_start) !! key = Some h →
           ∃ p, h = Some p.
Proof.
  split; [exact program_reachable|].
  exact (reachable_caches_same_keys (I := blas_build) _ program_reachable).
Defined.

Lemma call_releases_what_it_opened_witness :
  reachable (I := blas_build) start ∧
  resolve (I := blas_build) (gpu, q1) start
    = (Throw specification_mismatch, (resolve (I := blas_build) (gpu, q1) start).2) ∧
  ∃ evs, trace (resolve (I := blas_build) (gpu, q1) start).2 = trace start ++ evs ∧
    (length (opened evs) ≤ 1)%nat ∧ freed evs = opened evs.
Proof.
  assert (resolve (I := blas_build) (gpu, q1) start
          = (Throw specification_mismatch, (resolve (I := blas_build) (gpu, q1) start).2))
    as Hrun by (vm_compute; reflexivity).
  split_and!; [apply reachable_initial|exact Hrun|].
  exact (call_releases_what_it_opened (I := blas_build) (gpu, q1) start _ _
           (reachable_initial _ _) Hrun).
Defined.

Lemma opened_is_freed_or_held_witness :
  reachable (I := blas_build) (run (I := blas_build) program bare_start) ∧
  opened (trace (run (I := blas_build) program bare_start))
    ≡ₚ freed (trace (run (I := blas_build) program bare_start))
       ++ held (run (I := blas_build) program bare_start).
Proof.
  split; [exact program_reachable|].
  exact (opened_is_freed_or_held (I := blas_build) _ program_reachable).
Defined.

Lemma cached_tables_have_spec_version_witness :
  reachable (I := blas_build) after_cpu ∧
  tables after_cpu !! cpu = Some (Table 1 "B") ∧
  version (Table 1 "B") = SPEC_VERSION.
Proof.
  assert (reachable (I := blas_build) after_cpu) as Hreach
    by apply (reachable_resolve (I := blas_build) (cpu, q1) start), reachable_initial.
  assert (tables after_cpu !! cpu = Some (Table 1 "B")) as Hk
    by (vm_compute; reflexivity).
  split_and!; [exact Hreach|exact Hk|].
  exact (cached_tables_have_spec_version (I := blas_build) after_cpu cpu _ Hreach Hk).
Defined.

Lemma exception_tells_cause_witness :
  resolve (I := blas_build) (gpu, q1) start
    = (Throw specification_mismatch, (resolve (I := blas_build) (gpu, q1) start).2) ∧
  tables start !! gpu = None ∧
  ∃ p w evs t w1,
    search (candidates (I := blas_build) start gpu) (os start) (Some p) w evs ∧
    GET_FUNC p (table_names blas) w = (Some t, w1) ∧
    version (load w1 t) ≠ SPEC_VERSION.
Proof.
  assert (resolve (I := blas_build) (gpu, q1) start
          = (Throw specification_mismatch, (resolve (I := blas_build) (gpu, q1) start).2))
    as Hrun by (vm_compute; reflexivity).
  split; [exact Hrun|].
  exact (exception_tells_cause (I := blas_build) gpu q1 start _ _ Hrun).
Defined.

Lemma diagnostics_by_outcome_witness :
  resolve (I := blas_build) (cpu, q1) bare_start
    = (Throw backend_not_found, (resolve (I := blas_build) (cpu, q1) bare_start).2) ∧
  ∃ evs,
    trace (resolve (I := blas_build) (cpu, q1) bare_start).2 = trace bare_start ++ evs ∧
    length (diagnostics evs) = 1%nat ∧
    cerr_output (trace (resolve (I := blas_build) (cpu, q1) bare_start).2)
      = cerr_output (trace bare_start) ++
          (if cerr_bad (trace bare_start) then [] else omap id (diagnostics evs)).
Proof.
  assert (resolve (I := blas_build) (cpu, q1) bare_start
          = (Throw backend_not_found, (resolve (I := blas_build) (cpu, q1) bare_start).2))
    as Hrun by (vm_compute; reflexivity).
  split; [exact Hrun|].
  exact (diagnostics_by_outcome (I := blas_build) (cpu, q1) bare_start _ _ Hrun).
Defined.

Lemma call_opens_prefix_and_looks_up_once_witness :
  resolve (I := blas_build) (cpu, q1) start
    = (Return (ref_image ("libB.so", "blas_table")), after_cpu) ∧
  ∃ evs, trace after_cpu = trace start ++ evs ∧
    open_attempts evs `prefix_of` candidates (I := blas_build) start cpu ∧
    (symbol_lookups evs = [] ∨
     ∃ p, opened evs = [p] ∧ symbol_lookups evs = [(p, table_names blas)]).
Proof.
  assert (resolve (I := blas_build) (cpu, q1) start
          = (Return (ref_image ("libB.so", "blas_table")), after_cpu))
    as Hrun by (vm_compute; reflexivity).
  split; [exact Hrun|].
  exact (call_opens_prefix_and_looks_up_once (I := blas_build) (cpu, q1) start _ _ Hrun).
Defined.

Lemma resolve_keeps_registry_lookups_witness :
  tables start !! generic = None ∧
  (∀ dom k, registry_lookup (libraries (resolve (I := dft_build) (generic, q1) start).2) dom k
            = registry_lookup (libraries start) dom k) ∧
  ∃ m, libraries (resolve (I := dft_build) (generic, q1) start).2 !! dft = Some m ∧
       m !! generic = Some (candidates (I := dft_build) start generic).
Proof.
  split; [reflexivity|].
  pose proof (resolve_keeps_registry_lookups (I := dft_build) (generic, q1) start)
    as [Hsame Hentry].
  split; [exact Hsame|exact (Hentry eq_refl)].
Defined.

Lemma run_keeps_what_is_cached_witness :
  is_Some (tables after_cpu !! cpu) ∧
  tables after_cpu
    ⊆ tables (run (I := blas_build)
                [act_world bare_world; act_resolve (gpu, q1); act_resolve (cpu, q2)]
                after_cpu) ∧
  handles (run (I := blas_build)
             [act_world bare_world; act_resolve (gpu, q1); act_resolve (cpu, q2)]
             after_cpu) !! cpu = handles after_cpu !! cpu ∧
  trace after_cpu
    `prefix_of` trace (run (I := blas_build)
                         [act_world bare_world; act_resolve (gpu, q1); act_resolve (cpu, q2)]
                         after_cpu).
Proof.
  assert (is_Some (tables after_cpu !! cpu)) as Hk
    by (exists (Table 1 "B"); vm_compute; reflexivity).
  pose proof (run_keeps_what_is_cached (I := blas_build)
                [act_world bare_world; act_resolve (gpu, q1); act_resolve (cpu, q2)]
                after_cpu) as (Ht & Hh & Htr).
  split_and!; [exact Hk|exact Ht|exact (Hh cpu Hk)|exact Htr].
Defined.

Lemma retry_after_failure_loads_witness :
  resolve (I := blas_build) (cpu, q1) bare_start
    = (Throw backend_not_found, (resolve (I := blas_build) (cpu, q1) bare_start).2) ∧
  search (candidates (I := blas_build) bare_start cpu) world0 (Some "libB.so")
    (stub_open "libB.so" (stub_open "libA.so" world0).2).2
    [ev_open "libA.so" None; ev_open "libB.so" (Some "libB.so")] ∧
  ∃ s2,
    resolve (I := blas_build) (cpu, q2)
      (set_os world0 (resolve (I := blas_build) (cpu, q1) bare_start).2)
      = (Return (ref_image ("libB.so", "blas_table")), s2) ∧
    handles s2 !! cpu = Some (Some "libB.so") ∧
    tables s2 !! cpu = Some (load (os s2) ("libB.so", "blas_table")).
Proof.
  assert (resolve (I := blas_build) (cpu, q1) bare_start
          = (Throw backend_not_found, (resolve (I := blas_build) (cpu, q1) bare_start).2))
    as Hrun by (vm_compute; reflexivity).
  assert (search (candidates (I := blas_build) bare_start cpu) world0 (Some "libB.so")
            (stub_open "libB.so" (stub_open "libA.so" world0).2).2
            [ev_open "libA.so" None; ev_open "libB.so" (Some "libB.so")]) as Hs.
  { exact (search_miss (P := platform) "libA.so" ["libB.so"] world0
             (stub_open "libA.so" world0).2 _ _ _ eq_refl
             (search_hit (P := platform) "libB.so" [] (stub_open "libA.so" world0).2
                "libB.so" _ eq_refl)). }
  split_and!; [exact Hrun|exact Hs|].
  exact (retry_after_failure_loads (I := blas_build) cpu q1 q2 bare_start _ _ world0
           "libB.so" _ _ ("libB.so", "blas_table") _ Hrun Hs eq_refl eq_refl).
Defined.

Lemma last_error_text_witness :
  GetLastError (Win 126 []) ≠ 0%N ∧
  (GetLastErrorStdStr (Win 126 [])).1.1 = "The specified module could not be found." ∧
  String.length (GetLastErrorStdStr (Win 126 [])).1.1
    = N.to_nat (FormatMessage 126 (Win 126 [])).1.1 ∧
  local_frees (GetLastErrorStdStr (Win 126 [])).2 = [0%nat].
Proof.
  assert (GetLastError (Win 126 []) ≠ 0%N) as He by discriminate.
  pose proof (last_error_text (W := win32) (Win 126 [])) as (_ & Hlen & Hfree & _).
  split_and!; [exact He|reflexivity|exact (Hlen He)|exact Hfree].
Defined.

End MoreRuns.
